(** * mastering-golang: a shallow embedding of the tutorial's helper functions

    The repository is a set of Go teaching snippets.  This development embeds
    the functions that carry a contract (package [functions], [basics],
    [loops] and [collections]) and proves that contract.

    Layout: the embedding comes first (one module per Go package), the
    properties follow. *)

From Stdlib Require Import ZArith Lia String Ascii List.
From stdpp Require Import gmap strings list pretty.
From Equations Require Import Equations.
Import ListNotations.
Local Open Scope Z_scope.

(* ===================================================================== *)
(** * Go's [int] and run-time panics *)
(* ===================================================================== *)

Module GoInt.

(** The Go specification leaves the width of [int] to the platform: it is
    32 bits wide on GOARCH=386/arm and 64 bits wide on amd64/arm64. *)
Inductive IntSize : Set := Int32 | Int64.

Definition int_bits (sz : IntSize) : Z :=
  match sz with Int32 => 32 | Int64 => 64 end.

Definition modulus (sz : IntSize) : Z := 2 ^ int_bits sz.
Definition half_modulus (sz : IntSize) : Z := 2 ^ (int_bits sz - 1).

(** [math.MinInt] and [math.MaxInt]. *)
Definition MinInt (sz : IntSize) : Z := - half_modulus sz.
Definition MaxInt (sz : IntSize) : Z := half_modulus sz - 1.

(** The values an [int] variable can hold. *)
Definition in_range (sz : IntSize) (z : Z) : Prop :=
  MinInt sz <= z <= MaxInt sz.

(** Two's-complement wrap-around of an exact integer into [int]. *)
Definition wrap (sz : IntSize) (z : Z) : Z :=
  (z + half_modulus sz) mod modulus sz - half_modulus sz.

(** [a + b], [a - b], [a * b]: signed overflow wraps and never panics. *)
Definition add (sz : IntSize) (a b : Z) : Z := wrap sz (a + b).
Definition sub (sz : IntSize) (a b : Z) : Z := wrap sz (a - b).
Definition mul (sz : IntSize) (a b : Z) : Z := wrap sz (a * b).

(** A computation that either returns or stops with a run-time panic. *)
Inductive Res (A : Type) : Type :=
| Ok (a : A)
| Panic (msg : string).
Arguments Ok {A} a.
Arguments Panic {A} msg.

(** Sequencing stops at the first panic. *)
#[global] Instance Res_ret : MRet Res := fun A a => Ok a.
#[global] Instance Res_bind : MBind Res := fun A B k m =>
  match m with
  | Ok a => k a
  | Panic msg => Panic msg
  end.

Definition divide_error : string := "runtime error: integer divide by zero".

(** [a / b]: truncated toward zero; a zero divisor panics; the quotient
    [MinInt / -1] overflows and wraps back to [MinInt]. *)
Definition quo (sz : IntSize) (a b : Z) : Res Z :=
  if b =? 0 then Panic divide_error else Ok (wrap sz (Z.quot a b)).

(** [a % b]: the remainder has the sign of the dividend; a zero divisor
    panics. *)
Definition rem (sz : IntSize) (a b : Z) : Res Z :=
  if b =? 0 then Panic divide_error else Ok (Z.rem a b).

End GoInt.

(* ===================================================================== *)
(** * A store of addressable variables *)
(* ===================================================================== *)

(** Variables whose address is taken or that a closure captures live in a
    store of cells.  A Go pointer is the address of a cell; a value of array
    or struct type is the content of a cell, and assigning it or passing it
    to a function copies that content into another cell. *)
Module Store.

Definition loc : Set := positive.

Section Cells.
Context {V : Type}.

(** Declare a variable: a cell no live variable occupies, holding [v]. *)
Definition alloc (v : V) (h : gmap loc V) : loc * gmap loc V :=
  let l := fresh (dom h) in (l, <[l := v]> h).

(** Read through an address; [None] is a nil or dangling dereference. *)
Definition load (l : loc) (h : gmap loc V) : option V := h !! l.

(** Update the variable at address [l] in place. *)
Definition update (l : loc) (f : V -> V) (h : gmap loc V) : option (gmap loc V) :=
  match h !! l with
  | Some v => Some (<[l := f v]> h)
  | None => None
  end.
End Cells.

End Store.

(* ===================================================================== *)
(** * Package [functions] *)
(* ===================================================================== *)

Module Functions.
Import GoInt Store.

(** The value of an [error] result: [None] is [nil], [Some msg] an error
    whose [Error()] text is [msg]. *)
Definition error : Type := option string.

Definition nl : string := String "010" EmptyString.

(** ** Package-level variables *)

Record Globals : Type := {
  GlobalCounter : Z;
  globalMessage : string
}.

(** The initial values of the [var ( ... )] block. *)
Definition initial_globals : Globals :=
  {| GlobalCounter := 0; globalMessage := "This is a package-level variable" |}.

(** ** Pure helpers *)

Definition FunctionWithMultipleReturns (sz : IntSize) (dividend divisor : Z)
  : Res (Z * Z) :=
  if divisor =? 0 then
    mret (0, 0)
  else
    quotient ← quo sz dividend divisor;
    remainder ← rem sz dividend divisor;
    mret (quotient, remainder).

(** [switch operation] compares the tag with each case in order; [result]
    is the local declared by [var result int]. *)
Definition CalculateWithError (sz : IntSize) (a b : Z) (operation : string)
  : Res (Z * error) :=
  if String.eqb operation "add" then
    let result := add sz a b in mret (result, None)
  else if String.eqb operation "subtract" then
    let result := sub sz a b in mret (result, None)
  else if String.eqb operation "multiply" then
    let result := mul sz a b in mret (result, None)
  else if String.eqb operation "divide" then
    if b =? 0 then
      mret (0, Some "division by zero")
    else
      result ← quo sz a b;
      mret (result, None)
  else
    mret (0, Some ("unknown operation: " +:+ operation)).

(** ** [DemonstrateScope] *)

(** The function reads and writes the package-level variables and appends
    to standard output.  The short declaration [globalMessage := ...]
    introduces a local variable; from there on the name refers to the local
    one, exactly as the [let] below hides the record projection. *)
Definition DemonstrateScope (sz : IntSize) (g : Globals) (stdout : list string)
  : Globals * list string :=
  let stdout := stdout ++ ["Global message: " +:+ globalMessage g +:+ nl] in
  let stdout :=
    stdout ++ ["Global counter before: " +:+ pretty (GlobalCounter g) +:+ nl] in
  let g := {| GlobalCounter := add sz (GlobalCounter g) 1;
              globalMessage := globalMessage g |} in
  let stdout :=
    stdout ++ ["Global counter after increment: "
                 +:+ pretty (GlobalCounter g) +:+ nl] in
  let globalMessage := "I'm shadowing the global variable" in
  let stdout := stdout ++ ["Local message (shadowing): " +:+ globalMessage +:+ nl] in
  let stdout :=
    let blockVar := "I only exist in this block" in
    let stdout := stdout ++ ["Block variable: " +:+ blockVar +:+ nl] in
    stdout ++ ["Can access local message: " +:+ globalMessage +:+ nl] in
  let stdout :=
    foldl (fun stdout i =>
             let loopVar := "Loop iteration " +:+ pretty i in
             stdout ++ [loopVar +:+ nl])
          stdout (seqZ 0 3) in
  (g, stdout).

(** ** Closures *)

(** A counter is a function value whose only captured variable is [count];
    the value is represented by the address of that variable. *)
Record counter : Set := { count : loc }.

(** [Closure()] declares a new [count], initialised to zero, and returns the
    function literal that captured it. *)
Definition Closure (h : gmap loc Z) : counter * gmap loc Z :=
  let (l, h) := alloc 0 h in
  ({| count := l |}, h).

(** Calling the returned function: [count++; return count]. *)
Definition invoke (sz : IntSize) (c : counter) (h : gmap loc Z)
  : option (Z * gmap loc Z) :=
  h ← update (count c) (fun v => add sz v 1) h;
  v ← load (count c) h;
  Some (v, h).

(** A run of invocations, in program order; the results are paired with
    the counter that produced them. *)
Fixpoint invoke_all (sz : IntSize) (cs : list counter) (h : gmap loc Z)
  : option (list (counter * Z) * gmap loc Z) :=
  match cs with
  | [] => Some ([], h)
  | c :: cs =>
      '(v, h) ← invoke sz c h;
      '(vs, h) ← invoke_all sz cs h;
      Some ((c, v) :: vs, h)
  end.

(** ** Recursion *)

Equations? RecursiveFactorial (sz : IntSize) (n : Z) : Z by wf (Z.to_nat n) lt :=
  RecursiveFactorial sz n with Z_le_gt_dec n 1 => {
    | left _ := 1;
    | right _ := mul sz n (RecursiveFactorial sz (sub sz n 1)) }.
Proof.
  unfold sub, wrap.
  assert (0 < modulus sz /\ 0 < half_modulus sz) as [Hm Hh]
    by (destruct sz; split; reflexivity).
  pose proof (Z.mod_le (n - 1 + half_modulus sz) (modulus sz)).
  lia.
Qed.

(** The same body with the depth of the call stack made explicit: [fuel]
    bounds the number of nested activations, and [None] means the bound was
    reached before the outermost call returned. *)
Fixpoint RecursiveFactorial_depth (sz : IntSize) (fuel : nat) (n : Z) : option Z :=
  match fuel with
  | O => None
  | S fuel =>
      if n <=? 1 then Some 1
      else r ← RecursiveFactorial_depth sz fuel (sub sz n 1); Some (mul sz n r)
  end.

(** ** Methods *)

Record Calculator : Set := { LastResult : Z }.

(** Value receiver: [c] is a variable of the callee, initialised with a copy
    of the receiver operand. *)
Definition Add (sz : IntSize) (c : Calculator) (a b : Z) (h : gmap loc Calculator)
  : option (Z * gmap loc Calculator) :=
  let (c, h) := alloc c h in
  let result := add sz a b in
  h ← update c (fun _ => {| LastResult := result |}) h;
  Some (result, h).

(** Pointer receiver: [c] is the address of the caller's variable. *)
Definition AddAndStore (sz : IntSize) (c : loc) (a b : Z) (h : gmap loc Calculator)
  : option (Z * gmap loc Calculator) :=
  let result := add sz a b in
  h ← update c (fun _ => {| LastResult := result |}) h;
  Some (result, h).

Definition GetLastResult (c : Calculator) : Z := LastResult c.

(** Method calls on an addressable variable [calc]: a value receiver gets
    the variable's current value, a pointer receiver gets [&calc]. *)
Definition call_Add (sz : IntSize) (calc : loc) (a b : Z) (h : gmap loc Calculator)
  : option (Z * gmap loc Calculator) :=
  c ← load calc h; Add sz c a b h.

Definition call_AddAndStore (sz : IntSize) (calc : loc) (a b : Z)
    (h : gmap loc Calculator) : option (Z * gmap loc Calculator) :=
  AddAndStore sz calc a b h.

Definition call_GetLastResult (calc : loc) (h : gmap loc Calculator) : option Z :=
  c ← load calc h; Some (GetLastResult c).


(** ** Functions as values, variadic parameters, [defer] *)

Definition FunctionWithReturn (sz : IntSize) (a b : Z) : Z :=
  let sum := add sz a b in
  sum.



(** The returned function literal captures [multiplier]. *)
Definition FunctionReturningFunction (sz : IntSize) (multiplier : Z) : Z -> Z :=
  fun x => mul sz x multiplier.

(** [%v] of an [[]int]: the elements in decimal, separated by one space, in
    brackets. *)
Definition Sprint_ints (values : list Z) : string :=
  "[" +:+ String.concat " " (pretty <$> values) +:+ "]".

(** The loop [for _, v := range values { sum += v }] from [sum := 0]. *)
Definition sum_values (sz : IntSize) (values : list Z) : Z :=
  foldl (fun sum v => add sz sum v) 0 values.

Definition VariadicFunction (sz : IntSize) (prefix : string) (values : list Z)
    (stdout : list string) : list string :=
  let stdout := stdout ++ [prefix +:+ ": "] in
  let sum := sum_values sz values in
  stdout ++ ["Sum of " +:+ Sprint_ints values +:+ " = " +:+ pretty sum +:+ nl].

(** Go's [strings.Contains(s, substr)]: [substr] occurs somewhere in [s]. *)
Fixpoint Contains (s substr : string) : bool :=
  if String.prefix substr s then true
  else match s with
       | EmptyString => false
       | String _ s' => Contains s' substr
       end.

(** Each [defer] pushes its call, arguments already evaluated, on the stack
    of the activation; when the function returns, by either [return], the
    stack is run from the top.  The deferred calls here are [fmt.Println]
    of a constant: a call is represented by the line it prints. *)
Definition run_deferred (deferred : list string) (stdout : list string)
  : list string :=
  foldl (fun stdout line => stdout ++ [line]) stdout deferred.

Definition DeferredExecution (filename : string) (stdout : list string)
  : error * list string :=
  let stdout := stdout ++ ["Opening file: " +:+ filename +:+ nl] in
  let deferred := [] in
  let deferred := ("3. Final cleanup" +:+ nl) :: deferred in
  let deferred := ("2. Closing file" +:+ nl) :: deferred in
  let deferred := ("1. First deferred call" +:+ nl) :: deferred in
  let stdout := stdout ++ ["Processing file..." +:+ nl] in
  if Contains filename "error" then
    (Some "simulated error in file processing", run_deferred deferred stdout)
  else
    let stdout := stdout ++ ["File processed successfully" +:+ nl] in
    (None, run_deferred deferred stdout).
End Functions.

(* ===================================================================== *)
(** * Package [basics] *)
(* ===================================================================== *)

Module Operators.
Import GoInt.

Definition AllOperations (sz : IntSize) (x y : Z) : Res (Z * Z * Z * Z * Z) :=
  let sum := add sz x y in
  let difference := sub sz x y in
  let product := mul sz x y in
  quotient ← quo sz x y;
  remainder ← rem sz x y;
  mret (sum, difference, product, quotient, remainder).


(** [++] and [--] on a copy of [start]. *)
Definition IncrementDecrement (sz : IntSize) (start : Z) : Z * Z :=
  let inc := start in
  let inc := add sz inc 1 in
  let dec := start in
  let dec := sub sz dec 1 in
  (inc, dec).

(** The bitwise operators act on the two's-complement digits of an [int].
    On [Z] these are [Z.land], [Z.lor], [Z.lxor] and [Z.lnot]; [<<] drops the
    digits shifted out of the word, [>>] on a signed operand is the
    arithmetic shift. *)
Definition BitwiseOperations (sz : IntSize) (a b : Z) : Z * Z * Z * Z * Z * Z :=
  let andResult := Z.land a b in
  let orResult := Z.lor a b in
  let xorResult := Z.lxor a b in
  let notResult := Z.lnot a in
  let leftShift := wrap sz (Z.shiftl a 2) in
  let rightShift := Z.shiftr a 1 in
  (andResult, orResult, xorResult, notResult, leftShift, rightShift).

Definition Calculate (sz : IntSize) (a b : Z) : Z := add sz a b.

Definition ComparisonOperators (x y : Z)
  : bool * bool * bool * bool * bool * bool :=
  let equal := x =? y in
  let notEqual := negb (x =? y) in
  let lessThan := x <? y in
  let lessOrEqual := x <=? y in
  let greaterThan := x >? y in
  let greaterOrEqual := x >=? y in
  (equal, notEqual, lessThan, lessOrEqual, greaterThan, greaterOrEqual).

End Operators.

(* ===================================================================== *)
(** * Package [basics]: conditionals *)
(* ===================================================================== *)

Module Conditionals.
Import GoInt.

(** [doubled] is computed in [int]: [num * 2] wraps on overflow. *)
Definition CheckNumber (sz : IntSize) (num : Z) : string :=
  let doubled := mul sz num 2 in
  if doubled >? 100 then "Double of number is greater than 100"
  else if doubled =? 100 then "Double of number equals 100"
  else "Double of number is less than 100".

(** [value % 3] has the sign of [value]; the divisor is a non-zero
    constant, so the operation cannot panic. *)
Definition ProcessValue (value : Z) : string :=
  let remainder := Z.rem value 3 in
  if remainder =? 0 then "Divisible by 3"
  else if remainder =? 1 then "Remainder 1 when divided by 3"
  else if remainder =? 2 then "Remainder 2 when divided by 3"
  else "Unexpected value".

Definition CheckConditions (x y : Z) : string :=
  if (x >? 0) && (y >? 0) then "Both numbers are positive"
  else if (x <? 0) || (y <? 0) then "At least one number is negative"
  else if negb ((x =? 0) && (y =? 0)) then "Not both zeros"
  else "Both are zeros".

(** [len(username)] counts bytes. *)
Definition ValidateInput (username : string) (age : Z) : string :=
  if (String.length username <? 3)%nat then "Username too short"
  else if (20 <? String.length username)%nat then "Username too long"
  else
    if age <? 13 then "Too young to register"
    else if age >? 120 then "Invalid age"
    else
      if age >=? 18 then "Registration complete - Full access granted"
      else "Registration complete - Limited access (under 18)".

Definition GetAgeCategory (age : Z) : string :=
  if age <? 0 then "Invalid age"
  else
    if age <? 13 then "Child"
    else if age <? 20 then "Teenager"
    else if age <? 60 then "Adult"
    else "Senior".

(** A [switch] without expression takes the first case that holds. *)
Definition EvaluateGrade (score : Z) : string :=
  if score >=? 90 then "A - Excellent!"
  else if score >=? 80 then "B - Good job!"
  else if score >=? 70 then "C - Satisfactory"
  else if score >=? 60 then "D - Needs improvement"
  else "F - Failed".

(** [case v1, v2, ...] compares the switch expression with each value. *)
Definition GetDayType (dayNumber : Z) : string :=
  if (dayNumber =? 1) || (dayNumber =? 2) || (dayNumber =? 3)
     || (dayNumber =? 4) || (dayNumber =? 5) then "Weekday"
  else if (dayNumber =? 6) || (dayNumber =? 7) then "Weekend"
  else "Invalid day number".

Definition GetMonthQuarter (month : Z) : string :=
  if (month =? 1) || (month =? 2) || (month =? 3) then "Q1"
  else if (month =? 4) || (month =? 5) || (month =? 6) then "Q2"
  else if (month =? 7) || (month =? 8) || (month =? 9) then "Q3"
  else if (month =? 10) || (month =? 11) || (month =? 12) then "Q4"
  else "Invalid month".

(** A [rune] is an [int32]; the character literals are their code points:
    ['a'] 97, ['z'] 122, ['A'] 65, ['Z'] 90, ['0'] 48, ['9'] 57, [' '] 32,
    ['\n'] 10, ['\t'] 9. *)
Definition AnalyzeCharacter (char : Z) : string :=
  if (char >=? 97) && (char <=? 122) then "Lowercase letter"
  else if (char >=? 65) && (char <=? 90) then "Uppercase letter"
  else if (char >=? 48) && (char <=? 57) then "Digit"
  else if char =? 32 then "Space"
  else if char =? 10 then "Newline"
  else if char =? 9 then "Tab"
  else "Special character".

Definition GetSeason (month : string) : string :=
  if (month =? "December")%string || (month =? "January")%string
     || (month =? "February")%string then "Winter"
  else if (month =? "March")%string || (month =? "April")%string
     || (month =? "May")%string then "Spring"
  else if (month =? "June")%string || (month =? "July")%string
     || (month =? "August")%string then "Summer"
  else if (month =? "September")%string || (month =? "October")%string
     || (month =? "November")%string then "Fall"
  else "Invalid month".

End Conditionals.

(* ===================================================================== *)
(** * Package [loops] *)
(* ===================================================================== *)

Module Loops.

(** [RangeOverChannel] runs two goroutines over one channel.  Its executions
    are the interleavings of their atomic steps; [time.Sleep] only delays a
    goroutine, so it adds no step of its own: every schedule is an execution
    whatever the pauses. *)

(** A buffered channel of [int]: the queued values, oldest first. *)
Record chan : Type := {
  buf : list Z;
  cap : nat;
  closed : bool
}.

(** Program counter of the goroutine started by [go func() { ... }()].
    The loop variable [i] runs from 1 to 6, where [i * 10] and [i++] are
    exact in either width of [int]. *)
Inductive producer : Type :=
| PSend (i : Z)     (* loop head [i <= 5], then [numbers <- i * 10] *)
| PPrint (i : Z)    (* [fmt.Printf("  Sent: %d\n", i*10)], then [i++] *)
| PClose            (* [close(numbers)] *)
| PDone.

(** Program counter of the goroutine that called [RangeOverChannel]. *)
Inductive consumer : Type :=
| CStart            (* header line, [make(chan int, 5)], [go ...] *)
| CHeader           (* [fmt.Println("  Receiving values:")] *)
| CRange            (* [for num := range numbers] *)
| CBody (num : Z)   (* [fmt.Printf("    Received: %d\n", num)] *)
| CExit             (* [fmt.Println("  Channel closed, range loop ended")] *)
| CDone.

Record state : Type := {
  main : consumer;
  goroutines : list producer;   (* the goroutines [go] has started *)
  numbers : option chan;        (* [None] until [make] has run *)
  sent : list Z;                (* history of completed sends *)
  received : list Z;            (* history of the values bound to [num] *)
  stdout : list string
}.

Definition initial : state :=
  {| main := CStart; goroutines := []; numbers := None;
     sent := []; received := []; stdout := [] |}.

Definition nl : string := String "010" EmptyString.

Inductive step : state -> state -> Prop :=
| step_start s :
    main s = CStart ->
    step s {| main := CHeader;
              goroutines := goroutines s ++ [PSend 1];
              numbers := Some {| buf := []; cap := 5; closed := false |};
              sent := sent s; received := received s;
              stdout := stdout s ++ ["Range over Channel:" +:+ nl] |}
| step_header s :
    main s = CHeader ->
    step s {| main := CRange; goroutines := goroutines s; numbers := numbers s;
              sent := sent s; received := received s;
              stdout := stdout s ++ ["  Receiving values:" +:+ nl] |}
(* a receive takes the oldest queued value; it blocks while the queue is
   empty and the channel open *)
| step_receive s ch v rest :
    main s = CRange ->
    numbers s = Some ch -> buf ch = v :: rest ->
    step s {| main := CBody v; goroutines := goroutines s;
              numbers := Some {| buf := rest; cap := cap ch; closed := closed ch |};
              sent := sent s; received := received s ++ [v];
              stdout := stdout s |}
(* the range loop ends once the channel is closed and drained *)
| step_range_end s ch :
    main s = CRange ->
    numbers s = Some ch -> buf ch = [] -> closed ch = true ->
    step s {| main := CExit; goroutines := goroutines s; numbers := numbers s;
              sent := sent s; received := received s; stdout := stdout s |}
| step_body s num :
    main s = CBody num ->
    step s {| main := CRange; goroutines := goroutines s; numbers := numbers s;
              sent := sent s; received := received s;
              stdout := stdout s ++ ["    Received: " +:+ pretty num +:+ nl] |}
| step_exit s :
    main s = CExit ->
    step s {| main := CDone; goroutines := goroutines s; numbers := numbers s;
              sent := sent s; received := received s;
              stdout := stdout s ++ ["  Channel closed, range loop ended" +:+ nl] |}
(* a send appends to the queue; it blocks while the queue is full, and
   panics on a closed channel (no rule: the goroutine is then stuck) *)
| step_send s k i ch :
    goroutines s !! k = Some (PSend i) -> i <= 5 ->
    numbers s = Some ch -> closed ch = false ->
    (length (buf ch) < cap ch)%nat ->
    step s {| main := main s;
              goroutines := <[k := PPrint i]> (goroutines s);
              numbers := Some {| buf := buf ch ++ [i * 10]; cap := cap ch;
                                 closed := closed ch |};
              sent := sent s ++ [i * 10]; received := received s;
              stdout := stdout s |}
| step_sent s k i :
    goroutines s !! k = Some (PPrint i) ->
    step s {| main := main s;
              goroutines := <[k := PSend (i + 1)]> (goroutines s);
              numbers := numbers s;
              sent := sent s; received := received s;
              stdout := stdout s ++ ["  Sent: " +:+ pretty (i * 10) +:+ nl] |}
| step_loop_end s k i :
    goroutines s !! k = Some (PSend i) -> 5 < i ->
    step s {| main := main s;
              goroutines := <[k := PClose]> (goroutines s);
              numbers := numbers s;
              sent := sent s; received := received s; stdout := stdout s |}
| step_close s k ch :
    goroutines s !! k = Some PClose ->
    numbers s = Some ch -> closed ch = false ->
    step s {| main := main s;
              goroutines := <[k := PDone]> (goroutines s);
              numbers := Some {| buf := buf ch; cap := cap ch; closed := true |};
              sent := sent s; received := received s; stdout := stdout s |}.

(** A state in which no goroutine can move. *)
Definition terminal (s : state) : Prop := forall s', ~ step s s'.

(** An upper bound on the steps still to run, whatever the schedule:
    [sends_left] counts the values a goroutine has yet to queue, [pending]
    the values the range loop may still receive. *)
Definition sends_left (p : producer) : nat :=
  match p with
  | PSend i => Z.to_nat (6 - i)
  | PPrint i => Z.to_nat (5 - i)
  | PClose | PDone => 0
  end.

Definition producer_left (p : producer) : nat :=
  match p with
  | PSend i => 2 * Z.to_nat (6 - i) + 2
  | PPrint i => 2 * Z.to_nat (5 - i) + 3
  | PClose => 1
  | PDone => 0
  end.

Definition queued (s : state) : nat :=
  match numbers s with
  | Some ch => length (buf ch)
  | None => 0
  end.

Definition pending (s : state) : nat :=
  (queued s + sum_list_with sends_left (goroutines s))%nat.

Definition consumer_left (c : consumer) (pending : nat) : nat :=
  match c with
  | CStart => 2 * pending + 26
  | CHeader => 2 * pending + 3
  | CRange => 2 * pending + 2
  | CBody _ => 2 * pending + 3
  | CExit => 1
  | CDone => 0
  end.

Definition steps_left (s : state) : nat :=
  (consumer_left (main s) (pending s)
   + sum_list_with producer_left (goroutines s))%nat.

End Loops.

(* ===================================================================== *)
(** * Package [collections] *)
(* ===================================================================== *)

Module Collections.
Import Store.

Definition nl : string := String "010" EmptyString.

(** A Go array [[n]int] is a value: a cell of the store holds all of its
    [n] elements.  Only [int] arrays are modelled. *)

(** [a[i] = v] on the array variable at address [a].  The index expressions
    of this package are constants within the bounds of the array type; a
    run-time index out of range panics ([None]). *)
Definition store_index (a : loc) (i : nat) (v : Z) (h : gmap loc (list Z))
  : option (gmap loc (list Z)) :=
  arr ← load a h;
  if decide (i < length arr)%nat then update a (fun arr => <[i := v]> arr) h
  else None.

(** [dst := src] for an array variable [src]: a new variable initialised
    with the value of [src]. *)
Definition declare_copy (src : loc) (h : gmap loc (list Z))
  : option (loc * gmap loc (list Z)) :=
  arr ← load src h;
  Some (alloc arr h).

(** The [int] array variables of [ArrayBasics], by address. *)
Record ArrayBasics_vars : Set := {
  numbers : loc;
  primes : loc;
  sparse : loc;
  copyOfPrimes : loc
}.

(** The declarations and assignments of [ArrayBasics] on [int] arrays, in
    program order (the string array [colors] and the output are left out). *)
Definition ArrayBasics (h : gmap loc (list Z))
  : option (ArrayBasics_vars * gmap loc (list Z)) :=
  let (numbers, h) := alloc (replicate 5 0) h in
  let (primes, h) := alloc [2; 3; 5; 7; 11] h in
  let (sparse, h) := alloc [0; 10; 0; 0; 0; 50; 0; 0; 0; 90] h in
  h ← store_index numbers 2 42 h;
  '(copyOfPrimes, h) ← declare_copy primes h;
  h ← store_index copyOfPrimes 0 100 h;
  Some ({| numbers := numbers; primes := primes; sparse := sparse;
           copyOfPrimes := copyOfPrimes |}, h).

(** The length of the array type [[1000000]int]. *)
Definition bigArray_len : nat := Z.to_nat 1000000.

(** Array parameter: [arr] is a variable of the callee holding a copy of the
    argument. *)
Definition modifyArrayCopy (arr : list Z) (h : gmap loc (list Z))
  : option (gmap loc (list Z)) :=
  let (arr, h) := alloc arr h in
  store_index arr 0 999 h.

(** Pointer parameter: [arr] is the address of the caller's array. *)
Definition modifyArrayPointer (arr : loc) (h : gmap loc (list Z))
  : option (gmap loc (list Z)) :=
  store_index arr 0 999 h.

(** The calls [modifyArrayCopy(bigArray)] and [modifyArrayPointer(&bigArray)]
    of [ArrayOperations]. *)
Definition call_modifyArrayCopy (bigArray : loc) (h : gmap loc (list Z))
  : option (gmap loc (list Z)) :=
  arr ← load bigArray h; modifyArrayCopy arr h.

Definition call_modifyArrayPointer (bigArray : loc) (h : gmap loc (list Z))
  : option (gmap loc (list Z)) :=
  modifyArrayPointer bigArray h.

(** [a[i]] read from the array variable at address [a]. *)
Definition load_index (a : loc) (i : nat) (h : gmap loc (list Z)) : option Z :=
  arr ← load a h; arr !! i.

(** The part of [ArrayOperations] on [bigArray]; the result holds the three
    values of [bigArray[0]] the function prints: before the calls, after
    [modifyArrayCopy] and after [modifyArrayPointer]. *)
Definition ArrayOperations_bigArray (h : gmap loc (list Z))
  : option (Z * Z * Z * gmap loc (list Z)) :=
  let (bigArray, h) := alloc (replicate bigArray_len 0) h in
  h ← store_index bigArray 0 42 h;
  before ← load_index bigArray 0 h;
  h ← call_modifyArrayCopy bigArray h;
  after ← load_index bigArray 0 h;
  h ← call_modifyArrayPointer bigArray h;
  after_pointer ← load_index bigArray 0 h;
  Some (before, after, after_pointer, h).


(** ** The closures of [MapPatterns] *)

(** [fib] captures the map [cache] and itself; its state is the content of
    the map and the output so far.  [fuel] bounds the depth of the call
    stack; [None] means the bound was reached.  The operands of
    [fib(n-1) + fib(n-2)] are evaluated from left to right. *)
Fixpoint fib (sz : GoInt.IntSize) (fuel : nat) (n : Z)
    (st : gmap Z Z * list string) : option (Z * (gmap Z Z * list string)) :=
  match fuel with
  | O => None
  | S fuel =>
      if n <=? 1 then Some (n, st)
      else
        match st.1 !! n with
        | Some val =>
            Some (val, (st.1, st.2 ++ ["    Cache hit for fib(" +:+ pretty n
                                         +:+ ") = " +:+ pretty val +:+ nl]))
        | None =>
            '(a, st) ← fib sz fuel (GoInt.sub sz n 1) st;
            '(b, st) ← fib sz fuel (GoInt.sub sz n 2) st;
            let result := GoInt.add sz a b in
            Some (result,
                  (<[n := result]> st.1,
                   st.2 ++ ["    Calculated fib(" +:+ pretty n
                              +:+ ") = " +:+ pretty result +:+ nl]))
        end
  end.

(** The map literal [config] and the closure reading it. *)
Definition config : gmap string string :=
  <["port" := "8080"]> (<["host" := "localhost"]> ∅).

Definition getConfig (key defaultValue : string) : string :=
  match config !! key with
  | Some val => val
  | None => defaultValue
  end.

(** The two-level map [userPermissions] after the two assignments. *)
Definition userPermissions : gmap string (gmap string bool) :=
  <["bob" := <["write" := false]> (<["read" := true]> ∅)]>
    (<["alice" := <["delete" := false]> (<["write" := true]>
                     (<["read" := true]> ∅))]> ∅).

(** [perms[action]] on a missing key is the zero value [false]. *)
Definition hasPermission (user action : string) : bool :=
  match userPermissions !! user with
  | Some perms => default false (perms !! action)
  | None => false
  end.
End Collections.

(* ===================================================================== *)
(** * The demo runner [cmd/04-collections] *)
(* ===================================================================== *)

Module CollectionsDemo.

Definition nl : string := String "010" EmptyString.

(** The variables [cache] and [cacheOrder] the closure [addToCache]
    captures, and standard output. *)
Record cache_state : Type := {
  cache : gmap string string;
  cacheOrder : list string;
  stdout : list string
}.

Definition maxSize : nat := 3.

(** [%v] of a [[]string]. *)
Definition Sprint_strings (l : list string) : string :=
  "[" +:+ String.concat " " l +:+ "]".

Definition addToCache (key value : string) (st : cache_state) : cache_state :=
  let newOrder :=
    foldl (fun newOrder k =>
             if decide (k <> key) then newOrder ++ [k] else newOrder)
          [] (cacheOrder st) in
  let cacheOrder := newOrder in
  let cacheOrder := cacheOrder ++ [key] in
  let cache := <[key := value]> (cache st) in
  let '(cache, cacheOrder, stdout) :=
    if (maxSize <? length cacheOrder)%nat then
      match cacheOrder with
      | oldest :: rest =>
          (delete oldest cache, rest,
           stdout st ++ ["    Evicted: " +:+ oldest +:+ nl])
      | [] => (cache, cacheOrder, stdout st)
      end
    else (cache, cacheOrder, stdout st) in
  {| cache := cache; cacheOrder := cacheOrder;
     stdout := stdout ++ ["    Cached: " +:+ key +:+ " = " +:+ value
                            +:+ " (order: " +:+ Sprint_strings cacheOrder
                            +:+ ")" +:+ nl] |}.

(** [main] starts from an empty cache and adds five entries. *)
Definition empty_cache : cache_state :=
  {| cache := ∅; cacheOrder := []; stdout := [] |}.

Definition cache_usage : cache_state :=
  addToCache "user2" "Bob Jr."
    (addToCache "user4" "Dave"
       (addToCache "user3" "Charlie"
          (addToCache "user2" "Bob"
             (addToCache "user1" "Alice" empty_cache)))).

End CollectionsDemo.

(* ===================================================================== *)
(** * Properties of [int] arithmetic *)
(* ===================================================================== *)

Import GoInt Store.

Section IntFacts.
Context (sz : IntSize).

Lemma half_modulus_pos : 0 < half_modulus sz.
Proof. destruct sz; reflexivity. Qed.

Lemma modulus_double : modulus sz = 2 * half_modulus sz.
Proof. destruct sz; reflexivity. Qed.

Lemma modulus_pos : 0 < modulus sz.
Proof. destruct sz; reflexivity. Qed.

Lemma wrap_in_range z : in_range sz (wrap sz z).
Proof.
  unfold in_range, wrap, MinInt, MaxInt.
  pose proof (Z.mod_pos_bound (z + half_modulus sz) (modulus sz) modulus_pos).
  rewrite modulus_double in *. lia.
Qed.

Lemma wrap_exact z : in_range sz z -> wrap sz z = z.
Proof.
  unfold in_range, wrap, MinInt, MaxInt. intros Hz.
  rewrite Z.mod_small; [lia|]. rewrite modulus_double. lia.
Qed.

(** Wrapping only ever subtracts a multiple of the modulus. *)
Lemma wrap_congruent z : exists k, wrap sz z = z + k * modulus sz.
Proof.
  exists (- ((z + half_modulus sz) / modulus sz)). unfold wrap.
  pose proof modulus_pos.
  rewrite (Z.mod_eq (z + half_modulus sz) (modulus sz)) by lia. lia.
Qed.

Lemma wrap_shift z k : wrap sz (z + k * modulus sz) = wrap sz z.
Proof.
  unfold wrap. f_equal.
  replace (z + k * modulus sz + half_modulus sz)
    with (z + half_modulus sz + k * modulus sz) by lia.
  apply Z.mod_add. pose proof modulus_pos. lia.
Qed.

Lemma wrap_add_l a b : wrap sz (wrap sz a + b) = wrap sz (a + b).
Proof.
  destruct (wrap_congruent a) as [k ->].
  replace (a + k * modulus sz + b) with (a + b + k * modulus sz) by lia.
  apply wrap_shift.
Qed.

Lemma wrap_mul_r a b : wrap sz (a * wrap sz b) = wrap sz (a * b).
Proof.
  destruct (wrap_congruent b) as [k ->].
  replace (a * (b + k * modulus sz)) with (a * b + (a * k) * modulus sz) by lia.
  apply wrap_shift.
Qed.

Lemma wrap_nonneg_le z : 0 <= z -> wrap sz z <= z.
Proof.
  intros Hz. unfold wrap.
  pose proof half_modulus_pos. pose proof modulus_pos.
  pose proof (Z.mod_le (z + half_modulus sz) (modulus sz)). lia.
Qed.

(** When the exact result is representable the operators return it. *)
Lemma add_exact a b : in_range sz (a + b) -> add sz a b = a + b.
Proof. apply wrap_exact. Qed.

Lemma sub_exact a b : in_range sz (a - b) -> sub sz a b = a - b.
Proof. apply wrap_exact. Qed.

Lemma mul_exact a b : in_range sz (a * b) -> mul sz a b = a * b.
Proof. apply wrap_exact. Qed.

(** The truncated quotient of two [int]s is representable in every case
    but one. *)
Lemma quot_in_range a b :
  in_range sz a -> in_range sz b -> b <> 0 ->
  ~ (a = MinInt sz /\ b = -1) ->
  in_range sz (Z.quot a b).
Proof.
  unfold in_range, MinInt, MaxInt. intros Ha Hb Hb0 Hex.
  pose proof half_modulus_pos as Hh.
  assert (Z.abs (Z.quot a b) <= Z.abs a) as Habs.
  { rewrite <- (Z.quot_abs a b) by lia.
    apply Z.quot_le_upper_bound; nia. }
  destruct (Z.eq_dec a (- half_modulus sz)) as [->|Hne]; [|lia].
  assert (b <> -1) by tauto.
  destruct (Z.eq_dec b 1) as [->|Hb1]; [rewrite Z.quot_1_r; lia|].
  assert (2 <= Z.abs b) by lia.
  assert (Z.abs (Z.quot (- half_modulus sz) b) < half_modulus sz); [|lia].
  rewrite <- Z.quot_abs by lia.
  replace (Z.abs (- half_modulus sz)) with (half_modulus sz) by lia.
  apply Z.quot_lt; lia.
Qed.

Lemma quot_MinInt_overflow : wrap sz (Z.quot (MinInt sz) (-1)) = MinInt sz.
Proof. destruct sz; reflexivity. Qed.

End IntFacts.

(** Closed range side conditions, e.g. [in_range Int64 17]. *)
Ltac range_closed := unfold in_range; split; vm_compute; discriminate.

(* ===================================================================== *)
(** * Package [functions]: pure helpers *)
(* ===================================================================== *)

Section PureHelpers.
Import Functions.
Context (sz : IntSize).

(** The four tags [CalculateWithError] dispatches on. *)
Definition known_operation (operation : string) : Prop :=
  operation = "add" \/ operation = "subtract" \/
  operation = "multiply" \/ operation = "divide".

(** Closes the side conditions of one branch of the [switch]. *)
Ltac settle_dispatch :=
  repeat split; intros;
  try discriminate; try congruence; try reflexivity;
  try (exfalso; intuition (discriminate || congruence));
  try (intuition (discriminate || congruence)).

Lemma quo_nonzero a b : b <> 0 -> quo sz a b = Ok (wrap sz (Z.quot a b)).
Proof. intros Hb. unfold quo. destruct (Z.eqb_spec b 0); [lia | reflexivity]. Qed.

Lemma rem_nonzero a b : b <> 0 -> rem sz a b = Ok (Z.rem a b).
Proof. intros Hb. unfold rem. destruct (Z.eqb_spec b 0); [lia | reflexivity]. Qed.

Lemma quo_zero a : quo sz a 0 = Panic divide_error.
Proof. reflexivity. Qed.

(** C1. [CalculateWithError] never panics.  Its error is non-nil exactly when
    the operation is "divide" with [b = 0] (text "division by zero") or the
    operation is none of the four known tags (text "unknown operation: "
    followed by the tag).  With an error the int is 0; without one it is the
    result of Go's [a + b], [a - b], [a * b] or [a / b] on [int] (wrap-around
    on overflow, quotient truncated toward zero). *)
Theorem CalculateWithError_spec (a b : Z) (operation : string) :
  exists result err,
    CalculateWithError sz a b operation = Ok (result, err) /\
    (err <> None <->
       (operation = "divide" /\ b = 0) \/ ~ known_operation operation) /\
    (operation = "divide" -> b = 0 -> err = Some "division by zero") /\
    (~ known_operation operation ->
       err = Some ("unknown operation: " +:+ operation)) /\
    (err <> None -> result = 0) /\
    (err = None ->
       (operation = "add" -> result = add sz a b) /\
       (operation = "subtract" -> result = sub sz a b) /\
       (operation = "multiply" -> result = mul sz a b) /\
       (operation = "divide" ->
          quo sz a b = Ok result /\ result = wrap sz (Z.quot a b))).
Proof.
  unfold CalculateWithError, known_operation.
  destruct (String.eqb_spec operation "add") as [->|Hadd];
    [eexists _, _; split; [reflexivity | settle_dispatch]|].
  destruct (String.eqb_spec operation "subtract") as [->|Hsub];
    [eexists _, _; split; [reflexivity | settle_dispatch]|].
  destruct (String.eqb_spec operation "multiply") as [->|Hmul];
    [eexists _, _; split; [reflexivity | settle_dispatch]|].
  destruct (String.eqb_spec operation "divide") as [->|Hdiv].
  - destruct (Z.eqb_spec b 0) as [->|Hb].
    + eexists _, _; split; [reflexivity | settle_dispatch].
    + rewrite quo_nonzero by assumption.
      eexists _, _; split; [reflexivity | settle_dispatch].
  - eexists _, _; split; [reflexivity | settle_dispatch].
Qed.

(** The table of [TestCalculateWithError]. *)
Example TestCalculateWithError :
  CalculateWithError Int64 10 5 "add" = Ok (15, None) /\
  CalculateWithError Int64 10 5 "subtract" = Ok (5, None) /\
  CalculateWithError Int64 10 5 "multiply" = Ok (50, None) /\
  CalculateWithError Int64 10 5 "divide" = Ok (2, None) /\
  CalculateWithError Int64 10 0 "divide" = Ok (0, Some "division by zero") /\
  CalculateWithError Int64 10 5 "modulo"
    = Ok (0, Some "unknown operation: modulo") /\
  CalculateWithError Int64 10 5 "" = Ok (0, Some "unknown operation: ").
Proof. repeat split. Qed.

(** C2, as the code has it.  With a zero divisor the result is (0, 0).
    Otherwise, for every pair of [int]s but [(MinInt, -1)], the quotient is
    the exact quotient truncated toward zero and the remainder is
    [dividend - q * divisor]; for [(MinInt, -1)] the quotient overflows and
    the result is [(MinInt, 0)]. *)
Theorem FunctionWithMultipleReturns_spec (dividend divisor : Z)
    (Hdividend : in_range sz dividend) (Hdivisor : in_range sz divisor) :
  (divisor = 0 -> FunctionWithMultipleReturns sz dividend divisor = Ok (0, 0)) /\
  (divisor <> 0 -> ~ (dividend = MinInt sz /\ divisor = -1) ->
     exists q r,
       FunctionWithMultipleReturns sz dividend divisor = Ok (q, r) /\
       q = Z.quot dividend divisor /\ r = dividend - q * divisor) /\
  (dividend = MinInt sz -> divisor = -1 ->
     FunctionWithMultipleReturns sz dividend divisor = Ok (MinInt sz, 0)).
Proof.
  unfold FunctionWithMultipleReturns. repeat split.
  - intros ->. reflexivity.
  - intros Hnz Hex. destruct (Z.eqb_spec divisor 0) as [|_]; [contradiction|].
    rewrite quo_nonzero, rem_nonzero by assumption.
    rewrite wrap_exact by (apply quot_in_range; assumption).
    eexists _, _. split; [reflexivity|]. split; [reflexivity|].
    pose proof (Z.quot_rem' dividend divisor). lia.
  - intros -> ->. destruct sz; reflexivity.
Qed.

End PureHelpers.

(** The table of [TestFunctionWithMultipleReturns]. *)
Example TestFunctionWithMultipleReturns :
  Functions.FunctionWithMultipleReturns Int64 17 5 = Ok (3, 2) /\
  Functions.FunctionWithMultipleReturns Int64 20 4 = Ok (5, 0) /\
  Functions.FunctionWithMultipleReturns Int64 3 5 = Ok (0, 3) /\
  Functions.FunctionWithMultipleReturns Int64 10 0 = Ok (0, 0) /\
  Functions.FunctionWithMultipleReturns Int64 (-17) 5 = Ok (-3, -2).
Proof. repeat split. Qed.

(** Two of its rows, through the theorem. *)
Lemma FunctionWithMultipleReturns_spec_witness :
  Functions.FunctionWithMultipleReturns Int64 (-17) 5 = Ok (-3, -2) /\
  Functions.FunctionWithMultipleReturns Int64 10 0 = Ok (0, 0).
Proof.
  split.
  - destruct (FunctionWithMultipleReturns_spec Int64 (-17) 5)
      as (_ & H & _); [range_closed | range_closed |].
    destruct H as (q & r & -> & -> & ->); [discriminate | intros [? _]; discriminate |].
    reflexivity.
  - destruct (FunctionWithMultipleReturns_spec Int64 10 0)
      as (H & _); [range_closed | range_closed |].
    apply H. reflexivity.
Defined.

(** C2, as stated, fails at the most negative dividend divided by -1: the
    quotient truncated toward zero is [2^63] (resp. [2^31]), the function
    returns [MinInt]. *)
Lemma FunctionWithMultipleReturns_overflow :
  (in_range Int64 (-9223372036854775808) /\ in_range Int64 (-1) /\ -1 <> 0 /\
   Z.quot (-9223372036854775808) (-1) = 9223372036854775808 /\
   Functions.FunctionWithMultipleReturns Int64 (-9223372036854775808) (-1)
     = Ok (-9223372036854775808, 0) /\
   Functions.FunctionWithMultipleReturns Int64 (-9223372036854775808) (-1)
     <> Ok (Z.quot (-9223372036854775808) (-1),
            -9223372036854775808 - Z.quot (-9223372036854775808) (-1) * -1)) /\
  (in_range Int32 (-2147483648) /\ in_range Int32 (-1) /\
   Z.quot (-2147483648) (-1) = 2147483648 /\
   Functions.FunctionWithMultipleReturns Int32 (-2147483648) (-1)
     = Ok (-2147483648, 0) /\
   Functions.FunctionWithMultipleReturns Int32 (-2147483648) (-1)
     <> Ok (Z.quot (-2147483648) (-1),
            -2147483648 - Z.quot (-2147483648) (-1) * -1)).
Proof.
  repeat split; try (vm_compute; discriminate); vm_compute; reflexivity.
Qed.

(* ===================================================================== *)
(** * Package [basics]: operators *)
(* ===================================================================== *)

Section OperatorFacts.
Import Operators.
Context (sz : IntSize).

(** C8. [AllOperations(x, y)] returns exactly when [y <> 0].  With [y = 0]
    the unguarded division panics with Go's integer-divide-by-zero run-time
    error; with [y <> 0] the call returns the five results of Go's [x + y],
    [x - y], [x * y], [x / y] and [x % y]. *)
Theorem AllOperations_spec (x y : Z) :
  ((exists results, AllOperations sz x y = Ok results) <-> y <> 0) /\
  (y = 0 -> AllOperations sz x y = Panic divide_error) /\
  (y <> 0 ->
     quo sz x y = Ok (wrap sz (Z.quot x y)) /\
     rem sz x y = Ok (Z.rem x y) /\
     AllOperations sz x y
       = Ok (add sz x y, sub sz x y, mul sz x y,
             wrap sz (Z.quot x y), Z.rem x y)).
Proof.
  assert (y = 0 -> AllOperations sz x y = Panic divide_error) as Hzero.
  { intros ->. reflexivity. }
  assert (y <> 0 ->
          AllOperations sz x y
          = Ok (add sz x y, sub sz x y, mul sz x y,
                wrap sz (Z.quot x y), Z.rem x y)) as Hnonzero.
  { intros Hy. unfold AllOperations.
    rewrite quo_nonzero, rem_nonzero by assumption. reflexivity. }
  split; [split|split].
  - intros [results Hres] ->. rewrite Hzero in Hres by reflexivity. discriminate.
  - intros Hy. eexists. apply Hnonzero, Hy.
  - exact Hzero.
  - intros Hy. auto using quo_nonzero, rem_nonzero.
Qed.

(** Away from overflow the five results are the exact integers. *)
Lemma AllOperations_exact (x y : Z) :
  in_range sz x -> in_range sz y -> y <> 0 ->
  in_range sz (x + y) -> in_range sz (x - y) -> in_range sz (x * y) ->
  ~ (x = MinInt sz /\ y = -1) ->
  AllOperations sz x y = Ok (x + y, x - y, x * y, Z.quot x y, Z.rem x y).
Proof.
  intros Hx Hy Hnz Hadd Hsub Hmul Hex. unfold AllOperations.
  rewrite quo_nonzero, rem_nonzero by assumption.
  rewrite add_exact, sub_exact, mul_exact by assumption.
  rewrite wrap_exact by (apply quot_in_range; assumption).
  reflexivity.
Qed.

Example AllOperations_17_5 : AllOperations Int64 17 5 = Ok (22, 12, 85, 3, 2).
Proof. reflexivity. Qed.

End OperatorFacts.

(* ===================================================================== *)
(** * Package [functions]: recursion *)
(* ===================================================================== *)

(** The mathematical factorial, [0! = 1] and [(k+1)! = (k+1) * k!]. *)
Fixpoint factorial_nat (k : nat) : Z :=
  match k with
  | O => 1
  | S k' => Z.of_nat (S k') * factorial_nat k'
  end.

Definition factorial (n : Z) : Z := factorial_nat (Z.to_nat n).

(** The largest argument whose factorial an [int] can hold. *)
Definition largest_exact_factorial (sz : IntSize) : Z :=
  match sz with Int32 => 12 | Int64 => 20 end.

Section Recursion.
Import Functions.
Context (sz : IntSize).

Lemma factorial_nat_fact k : factorial_nat k = Z.of_nat (fact k).
Proof.
  induction k as [|k IH]; [reflexivity|].
  change (fact (S k)) with (S k * fact k)%nat.
  rewrite Nat2Z.inj_mul, <- IH. reflexivity.
Qed.

Lemma factorial_step n : 1 <= n -> factorial n = n * factorial (n - 1).
Proof.
  intros Hn. unfold factorial.
  replace (Z.to_nat n) with (S (Z.to_nat (n - 1))) by lia.
  cbn [factorial_nat]. f_equal. lia.
Qed.

Lemma factorial_small n : 0 <= n <= 1 -> factorial n = 1.
Proof.
  intros Hn. assert (n = 0 \/ n = 1) as [-> | ->] by lia; reflexivity.
Qed.

Lemma RecursiveFactorial_base n : n <= 1 -> RecursiveFactorial sz n = 1.
Proof.
  intros Hn. simp RecursiveFactorial.
  destruct (Z_le_gt_dec n 1); [reflexivity | lia].
Qed.

Lemma RecursiveFactorial_rec n :
  1 < n ->
  RecursiveFactorial sz n = mul sz n (RecursiveFactorial sz (sub sz n 1)).
Proof.
  intros Hn. rewrite RecursiveFactorial_equation_1.
  destruct (Z_le_gt_dec n 1); [lia | reflexivity].
Qed.

(** The argument of the recursive call: smaller, and [n - 1] exactly for an
    [int]. *)
Lemma recursive_argument_decreases n : 1 < n -> sub sz n 1 < n.
Proof. intros Hn. pose proof (wrap_nonneg_le sz (n - 1)). unfold sub. lia. Qed.

Lemma recursive_argument_exact n : in_range sz n -> 1 < n -> sub sz n 1 = n - 1.
Proof.
  intros Hn H1. apply sub_exact. unfold in_range, MinInt, MaxInt in *.
  pose proof (half_modulus_pos sz). lia.
Qed.

(** The result is the factorial reduced into [int]. *)
Lemma RecursiveFactorial_wraps n :
  in_range sz n -> 0 <= n -> RecursiveFactorial sz n = wrap sz (factorial n).
Proof.
  intros Hrange Hn. remember (Z.to_nat n) as k eqn:Hk.
  revert n Hrange Hn Hk. induction k as [|k IH]; intros n Hrange Hn Hk.
  - rewrite RecursiveFactorial_base, factorial_small by lia.
    destruct sz; reflexivity.
  - destruct (Z_le_gt_dec n 1) as [Hle|Hgt].
    + rewrite RecursiveFactorial_base, factorial_small by lia.
      destruct sz; reflexivity.
    + rewrite RecursiveFactorial_rec, recursive_argument_exact
        by (assumption || lia).
      assert (in_range sz (n - 1)) as Hpred.
      { pose proof (half_modulus_pos sz).
        unfold in_range, MinInt, MaxInt in *. lia. }
      rewrite IH by (assumption || lia).
      unfold mul. rewrite wrap_mul_r, <- factorial_step by lia. reflexivity.
Qed.

Lemma factorial_fits n :
  0 <= n <= largest_exact_factorial sz -> in_range sz (factorial n).
Proof.
  intros Hn. destruct sz; cbn [largest_exact_factorial] in Hn.
  - assert (In n (seqZ 0 13)) as Hin.
    { apply list_elem_of_In, elem_of_seqZ. lia. }
    vm_compute in Hin.
    repeat (destruct Hin as [<- | Hin]; [range_closed|]). destruct Hin.
  - assert (In n (seqZ 0 21)) as Hin.
    { apply list_elem_of_In, elem_of_seqZ. lia. }
    vm_compute in Hin.
    repeat (destruct Hin as [<- | Hin]; [range_closed|]). destruct Hin.
Qed.

(** C4, as the code has it.  For an [int] [n >= 0] the result is [n!]
    reduced into [int] by wrap-around; it is [n!] itself for every [n] up to
    12 (32-bit [int]) or 20 (64-bit [int]).  The recursion is
    [n * RecursiveFactorial(n-1)] with base case [n <= 1]. *)
Theorem RecursiveFactorial_spec (n : Z)
    (Hrange : in_range sz n) (Hn : 0 <= n) :
  RecursiveFactorial sz n = wrap sz (factorial n) /\
  (n <= largest_exact_factorial sz -> RecursiveFactorial sz n = factorial n) /\
  (n <= 1 -> RecursiveFactorial sz n = 1) /\
  (1 < n ->
     RecursiveFactorial sz n = mul sz n (RecursiveFactorial sz (n - 1))).
Proof.
  split; [apply RecursiveFactorial_wraps; assumption|].
  split; [|split].
  - intros Hle. rewrite RecursiveFactorial_wraps by assumption.
    apply wrap_exact, factorial_fits. lia.
  - apply RecursiveFactorial_base.
  - intros H1. rewrite RecursiveFactorial_rec by assumption.
    rewrite recursive_argument_exact by assumption. reflexivity.
Qed.

(** Enough stack always lets the call return: [n] activations for [n > 1],
    a single one for [n <= 1]. *)
Lemma RecursiveFactorial_depth_enough fuel n :
  (1 <= fuel)%nat -> (Z.to_nat n <= fuel)%nat ->
  RecursiveFactorial_depth sz fuel n = Some (RecursiveFactorial sz n).
Proof.
  revert n. induction fuel as [|fuel IH]; intros n H1 Hfuel; [lia|].
  cbn [RecursiveFactorial_depth].
  destruct (Z.leb_spec n 1) as [Hle|Hgt].
  - rewrite RecursiveFactorial_base by assumption. reflexivity.
  - pose proof (recursive_argument_decreases n Hgt).
    rewrite IH by lia. rewrite (RecursiveFactorial_rec n) by assumption.
    reflexivity.
Qed.

(** C9. [RecursiveFactorial] returns on every input: a call stack of
    [max 1 n] activations is enough.  The argument of each recursive call is
    strictly smaller ([n - 1] for an [int] [n > 1]), and for [n <= 1],
    negative [n] included, the first activation returns 1 without
    recursing. *)
Theorem RecursiveFactorial_terminates (n : Z) :
  (exists v, forall fuel,
      (1 <= fuel)%nat -> (Z.to_nat n <= fuel)%nat ->
      RecursiveFactorial_depth sz fuel n = Some v) /\
  (1 < n -> sub sz n 1 < n /\ (in_range sz n -> sub sz n 1 = n - 1)) /\
  (n <= 1 ->
     RecursiveFactorial_depth sz 1 n = Some 1 /\ RecursiveFactorial sz n = 1).
Proof.
  split; [|split].
  - exists (RecursiveFactorial sz n). intros fuel.
    apply RecursiveFactorial_depth_enough.
  - intros Hn. split; [apply recursive_argument_decreases; assumption|].
    intros Hrange. apply recursive_argument_exact; assumption.
  - intros Hn. split; [|apply RecursiveFactorial_base; assumption].
    cbn. destruct (Z.leb_spec n 1); [reflexivity | lia].
Qed.

End Recursion.

(** The table of [TestRecursiveFactorial]. *)
Example TestRecursiveFactorial :
  map (Functions.RecursiveFactorial Int64) [0; 1; 2; 3; 4; 5; 6; 7]
  = [1; 1; 2; 6; 24; 120; 720; 5040].
Proof. reflexivity. Qed.

Lemma RecursiveFactorial_spec_witness :
  Functions.RecursiveFactorial Int64 7 = 5040.
Proof.
  destruct (RecursiveFactorial_spec Int64 7) as (_ & H & _);
    [range_closed | lia |].
  rewrite H; [reflexivity | discriminate].
Defined.

(** C4, as stated, fails as soon as [n!] no longer fits in an [int]:
    at 21 with a 64-bit [int], at 13 with a 32-bit one. *)
Lemma RecursiveFactorial_overflow :
  (in_range Int64 21 /\ 0 <= 21 /\
   factorial 21 = 51090942171709440000 /\
   Functions.RecursiveFactorial Int64 21 = -4249290049419214848 /\
   Functions.RecursiveFactorial Int64 21 <> factorial 21) /\
  (in_range Int32 13 /\ 0 <= 13 /\
   factorial 13 = 6227020800 /\
   Functions.RecursiveFactorial Int32 13 = 1932053504 /\
   Functions.RecursiveFactorial Int32 13 <> factorial 13).
Proof.
  repeat split; try (vm_compute; discriminate); vm_compute; reflexivity.
Qed.

(* ===================================================================== *)
(** * Package [functions]: scope *)
(* ===================================================================== *)

(** The package state and output after [calls] successive calls. *)
Definition DemonstrateScope_times (sz : IntSize) (calls : nat)
    (s : Functions.Globals * list string) : Functions.Globals * list string :=
  Nat.iter calls (fun s => Functions.DemonstrateScope sz s.1 s.2) s.

Section Scope.
Import Functions.
Context (sz : IntSize).

Lemma DemonstrateScope_globals g stdout :
  (DemonstrateScope sz g stdout).1
  = {| GlobalCounter := add sz (GlobalCounter g) 1;
       globalMessage := globalMessage g |}.
Proof. reflexivity. Qed.

(** What one call prints: the fourth and sixth lines show the local
    variable, the first one the package-level variable. *)
Lemma DemonstrateScope_output g stdout :
  (DemonstrateScope sz g stdout).2
  = stdout ++
    [ "Global message: " +:+ globalMessage g +:+ nl;
      "Global counter before: " +:+ pretty (GlobalCounter g) +:+ nl;
      "Global counter after increment: "
        +:+ pretty (add sz (GlobalCounter g) 1) +:+ nl;
      "Local message (shadowing): I'm shadowing the global variable" +:+ nl;
      "Block variable: I only exist in this block" +:+ nl;
      "Can access local message: I'm shadowing the global variable" +:+ nl;
      "Loop iteration 0" +:+ nl;
      "Loop iteration 1" +:+ nl;
      "Loop iteration 2" +:+ nl ].
Proof.
  unfold DemonstrateScope. cbn [snd foldl seqZ GlobalCounter globalMessage].
  change (seqZ 0 3) with [0; 1; 2]. cbn [foldl].
  repeat rewrite <- app_assoc. reflexivity.
Qed.

Lemma DemonstrateScope_times_S calls s :
  DemonstrateScope_times sz (S calls) s
  = DemonstrateScope sz (DemonstrateScope_times sz calls s).1
                        (DemonstrateScope_times sz calls s).2.
Proof. reflexivity. Qed.

Lemma DemonstrateScope_times_message calls g stdout :
  globalMessage (DemonstrateScope_times sz calls (g, stdout)).1 = globalMessage g.
Proof.
  induction calls as [|calls IH]; [reflexivity|].
  rewrite DemonstrateScope_times_S, DemonstrateScope_globals. exact IH.
Qed.

Lemma DemonstrateScope_times_counter calls g stdout :
  GlobalCounter (DemonstrateScope_times sz (S calls) (g, stdout)).1
  = wrap sz (GlobalCounter g + Z.of_nat (S calls)).
Proof.
  induction calls as [|calls IH].
  - rewrite DemonstrateScope_times_S, DemonstrateScope_globals. reflexivity.
  - rewrite DemonstrateScope_times_S, DemonstrateScope_globals.
    cbn [GlobalCounter]. rewrite IH. unfold add. rewrite wrap_add_l.
    f_equal. lia.
Qed.

(** C6. A call replaces [GlobalCounter] by Go's [GlobalCounter + 1] (the
    exact successor unless the counter already holds the largest [int]) and
    leaves the package-level [globalMessage] as it was, although it prints
    the text of the local variable of the same name.  Hence after any number
    of calls from the initial package state [globalMessage] still holds
    "This is a package-level variable". *)
Theorem DemonstrateScope_spec (g : Globals) (stdout : list string) :
  GlobalCounter (DemonstrateScope sz g stdout).1 = add sz (GlobalCounter g) 1 /\
  (in_range sz (GlobalCounter g) -> GlobalCounter g <> MaxInt sz ->
     GlobalCounter (DemonstrateScope sz g stdout).1 = GlobalCounter g + 1) /\
  globalMessage (DemonstrateScope sz g stdout).1 = globalMessage g /\
  In ("Local message (shadowing): I'm shadowing the global variable" +:+ nl)
     (DemonstrateScope sz g stdout).2 /\
  (forall calls,
     globalMessage (DemonstrateScope_times sz calls (initial_globals, stdout)).1
     = "This is a package-level variable").
Proof.
  rewrite DemonstrateScope_globals. cbn [GlobalCounter globalMessage].
  split; [reflexivity|]. split; [|split; [reflexivity|split]].
  - intros Hrange Hmax. apply add_exact.
    unfold in_range, MaxInt, MinInt in *. lia.
  - rewrite DemonstrateScope_output. apply in_or_app. right.
    cbn. auto 6.
  - intros calls. apply DemonstrateScope_times_message.
Qed.

Example DemonstrateScope_twice :
  (DemonstrateScope_times Int64 2 (initial_globals, [])).1
  = {| GlobalCounter := 2; globalMessage := "This is a package-level variable" |}.
Proof. reflexivity. Qed.

End Scope.

(* ===================================================================== *)
(** * The store *)
(* ===================================================================== *)

Section StoreFacts.
Context {V : Type}.
Implicit Types (h : gmap loc V) (l : loc) (v : V).

Lemma alloc_fresh v h : h !! (alloc v h).1 = None.
Proof. apply not_elem_of_dom, is_fresh. Qed.

Lemma alloc_lookup_new v h : (alloc v h).2 !! (alloc v h).1 = Some v.
Proof. apply lookup_insert_eq. Qed.

(** Declaring a variable leaves every live variable as it was. *)
Lemma alloc_lookup_old v h l : is_Some (h !! l) -> (alloc v h).2 !! l = h !! l.
Proof.
  intros [w Hw]. unfold alloc. cbn [snd].
  apply lookup_insert_ne. intros <-.
  pose proof (alloc_fresh v h) as Hnew. unfold alloc in Hnew. cbn [fst] in Hnew.
  congruence.
Qed.

Lemma alloc_distinct v h l : is_Some (h !! l) -> (alloc v h).1 <> l.
Proof.
  intros [w Hw] <-. pose proof (alloc_fresh v h). congruence.
Qed.

Lemma update_live l f h v :
  h !! l = Some v -> update l f h = Some (<[l := f v]> h).
Proof. intros Hl. unfold update. rewrite Hl. reflexivity. Qed.

End StoreFacts.

(* ===================================================================== *)
(** * Package [functions]: methods *)
(* ===================================================================== *)

Section Methods.
Import Functions.
Context (sz : IntSize).

Lemma call_Add_spec (h : gmap loc Calculator) calc c a b :
  h !! calc = Some c ->
  exists h1,
    call_Add sz calc a b h = Some (add sz a b, h1) /\
    (forall l, is_Some (h !! l) -> h1 !! l = h !! l).
Proof.
  intros Hcalc. unfold call_Add, load. rewrite Hcalc. cbn [mbind option_bind].
  unfold Add. destruct (alloc c h) as [copy h0] eqn:Halloc.
  assert (h0 !! copy = Some c) as Hcopy.
  { pose proof (alloc_lookup_new c h) as H. rewrite Halloc in H. exact H. }
  rewrite (update_live _ _ _ _ Hcopy). cbn [mbind option_bind].
  eexists. split; [reflexivity|].
  intros l Hl.
  pose proof (alloc_distinct c h l Hl) as Hne. rewrite Halloc in Hne.
  rewrite lookup_insert_ne by exact Hne.
  pose proof (alloc_lookup_old c h l Hl) as Hold. rewrite Halloc in Hold.
  exact Hold.
Qed.

Lemma call_AddAndStore_spec (h : gmap loc Calculator) calc c a b :
  h !! calc = Some c ->
  call_AddAndStore sz calc a b h
  = Some (add sz a b, <[calc := {| LastResult := add sz a b |}]> h).
Proof.
  intros Hcalc. unfold call_AddAndStore, AddAndStore.
  rewrite (update_live _ _ _ _ Hcalc). reflexivity.
Qed.

(** C10. For a [Calculator] variable [calc] holding [c]: [calc.Add(a, b)]
    returns Go's [a + b] and leaves [calc] (and every other variable) as it
    was, the write going to the callee's copy; [calc.AddAndStore(a, b)]
    returns [a + b], sets [calc.LastResult] to it and changes no other
    variable, after which [calc.GetLastResult()] returns that value. *)
Theorem Calculator_methods (h : gmap loc Calculator) (calc : loc)
    (c : Calculator) (a b : Z) (Hcalc : h !! calc = Some c) :
  (exists h1,
      call_Add sz calc a b h = Some (add sz a b, h1) /\
      h1 !! calc = Some c /\
      LastResult <$> h1 !! calc = Some (LastResult c) /\
      (forall l, is_Some (h !! l) -> h1 !! l = h !! l)) /\
  (exists h2,
      call_AddAndStore sz calc a b h = Some (add sz a b, h2) /\
      LastResult <$> h2 !! calc = Some (add sz a b) /\
      call_GetLastResult calc h2 = Some (add sz a b) /\
      (forall l, l <> calc -> h2 !! l = h !! l)).
Proof.
  split.
  - destruct (call_Add_spec h calc c a b Hcalc) as (h1 & Hcall & Hframe).
    exists h1. split; [exact Hcall|].
    assert (h1 !! calc = Some c) as Hsame by (rewrite Hframe; eauto).
    rewrite Hsame. auto.
  - eexists. split; [exact (call_AddAndStore_spec h calc c a b Hcalc)|].
    unfold call_GetLastResult, load. rewrite lookup_insert_eq.
    repeat split.
    intros l Hl. apply lookup_insert_ne. congruence.
Qed.

End Methods.

(** The two subtests of [TestCalculatorMethods], on
    [calc := Calculator{LastResult: 0}]. *)
Lemma Calculator_methods_witness :
  (exists h1,
      Functions.call_Add Int64 1%positive 5 3
        {[ 1%positive := {| Functions.LastResult := 0 |} ]} = Some (8, h1) /\
      Functions.LastResult <$> h1 !! 1%positive = Some 0) /\
  (exists h2,
      Functions.call_AddAndStore Int64 1%positive 10 7
        {[ 1%positive := {| Functions.LastResult := 0 |} ]} = Some (17, h2) /\
      Functions.LastResult <$> h2 !! 1%positive = Some 17 /\
      Functions.call_GetLastResult 1%positive h2 = Some 17).
Proof.
  destruct (Calculator_methods Int64
              {[ 1%positive := {| Functions.LastResult := 0 |} ]} 1%positive
              {| Functions.LastResult := 0 |} 5 3)
    as [(h1 & Hadd & _ & Hlast & _) _]; [reflexivity|].
  destruct (Calculator_methods Int64
              {[ 1%positive := {| Functions.LastResult := 0 |} ]} 1%positive
              {| Functions.LastResult := 0 |} 10 7)
    as [_ (h2 & Hstore & Hlast2 & Hget & _)]; [reflexivity|].
  split; [exists h1 | exists h2]; auto.
Defined.

(* ===================================================================== *)
(** * Package [functions]: closures *)
(* ===================================================================== *)

#[global] Instance counter_eq_dec : EqDecision Functions.counter.
Proof. solve_decision. Defined.

(** The values one counter returned in a run, oldest first. *)
Definition returned_by (c : Functions.counter)
    (rs : list (Functions.counter * Z)) : list Z :=
  (filter (fun r => r.1 = c) rs).*2.

(** How often a run invokes one counter. *)
Definition invocations_of (c : Functions.counter)
    (cs : list Functions.counter) : nat :=
  length (filter (fun c' => c' = c) cs).

(** Every counter of a run was obtained from [Closure()]: its [count] is a
    live variable. *)
Definition all_live (cs : list Functions.counter) (h : gmap loc Z) : Prop :=
  forall c, c ∈ cs -> is_Some (h !! Functions.count c).

Section Closures.
Import Functions.
Context (sz : IntSize).

Lemma counter_address_inj (c c' : counter) : count c = count c' -> c = c'.
Proof. destruct c, c'. cbn. congruence. Qed.

Lemma invoke_live h c v :
  h !! count c = Some v ->
  invoke sz c h = Some (add sz v 1, <[count c := add sz v 1]> h).
Proof.
  intros Hc. unfold invoke. rewrite (update_live _ _ _ _ Hc).
  cbn [mbind option_bind]. unfold load. rewrite lookup_insert_eq. reflexivity.
Qed.

Lemma returned_by_cons_same c v rs :
  returned_by c ((c, v) :: rs) = v :: returned_by c rs.
Proof. unfold returned_by. rewrite filter_cons_True by reflexivity. reflexivity. Qed.

Lemma returned_by_cons_other c c' v rs :
  c' <> c -> returned_by c ((c', v) :: rs) = returned_by c rs.
Proof. intros Hne. unfold returned_by. rewrite filter_cons_False by exact Hne. reflexivity. Qed.

(** The closed form of a run: a counter whose [count] holds [v0] returns
    [v0 + 1], [v0 + 2], ..., each reduced into [int], whatever the other
    counters do in between. *)
Lemma invoke_all_returns cs : forall h c v0,
  h !! count c = Some v0 -> all_live cs h ->
  exists rs h',
    invoke_all sz cs h = Some (rs, h') /\
    returned_by c rs
    = (fun k => wrap sz (v0 + Z.of_nat k)) <$> seq 1 (invocations_of c cs).
Proof.
  induction cs as [|c' cs IH]; intros h c v0 Hc Hlive.
  - eexists _, _. split; reflexivity.
  - assert (all_live cs h) as Htail.
    { intros d Hd. apply Hlive. right. exact Hd. }
    assert (is_Some (h !! count c')) as [v' Hc'] by (apply Hlive; left).
    cbn [invoke_all]. rewrite (invoke_live _ _ _ Hc'). cbn [mbind option_bind].
    assert (all_live cs (<[count c' := add sz v' 1]> h)) as Hlive'.
    { intros d Hd. apply lookup_insert_is_Some'. right. apply Htail, Hd. }
    destruct (decide (c' = c)) as [->|Hne].
    + rewrite Hc in Hc'. injection Hc' as <-.
      destruct (IH (<[count c := add sz v0 1]> h) c (add sz v0 1))
        as (rs & h' & -> & Hrs); [apply lookup_insert_eq | exact Hlive' |].
      cbn [mbind option_bind]. eexists _, _. split; [reflexivity|].
      rewrite returned_by_cons_same, Hrs.
      unfold invocations_of. rewrite filter_cons_True by reflexivity.
      cbn [length seq fmap list_fmap].
      change (add sz v0 1) with (wrap sz (v0 + Z.of_nat 1)) at 1. f_equal.
      rewrite <- (fmap_S_seq 1), <- list_fmap_compose.
      apply list_fmap_ext. intros _ k _. cbn. unfold add.
      rewrite wrap_add_l. f_equal. lia.
    + destruct (IH (<[count c' := add sz v' 1]> h) c v0)
        as (rs & h' & -> & Hrs); [| exact Hlive' |].
      { rewrite lookup_insert_ne; [exact Hc|].
        intros Heq. apply Hne, counter_address_inj, Heq. }
      cbn [mbind option_bind]. eexists _, _. split; [reflexivity|].
      rewrite returned_by_cons_other by exact Hne. rewrite Hrs.
      unfold invocations_of. rewrite filter_cons_False by exact Hne.
      reflexivity.
Qed.

Lemma invocations_of_without c c' cs :
  c <> c' ->
  invocations_of c (filter (fun d => d <> c') cs) = invocations_of c cs.
Proof.
  intros Hne. unfold invocations_of. induction cs as [|d cs IH]; [reflexivity|].
  destruct (decide (d = c')) as [->|Hd].
  - rewrite (filter_cons_False (fun d => d <> c')) by tauto.
    rewrite (filter_cons_False (fun d => d = c)) by congruence. exact IH.
  - rewrite (filter_cons_True (fun d => d <> c')) by exact Hd.
    destruct (decide (d = c)) as [->|Hdc].
    + rewrite !(filter_cons_True (fun d => d = c)) by reflexivity.
      cbn [length]. f_equal. exact IH.
    + rewrite !(filter_cons_False (fun d => d = c)) by exact Hdc. exact IH.
Qed.

End Closures.

Section ClosureCounters.
Import Functions.
Context (sz : IntSize).

Lemma Closure_creates h c h1 :
  Closure h = (c, h1) ->
  h !! count c = None /\ h1 !! count c = Some 0 /\
  (forall l, is_Some (h !! l) -> h1 !! l = h !! l).
Proof.
  unfold Closure. destruct (alloc 0 h) as [l h0] eqn:Halloc.
  intros [= <- <-]. cbn [count].
  pose proof (alloc_fresh 0 h) as Hfresh.
  pose proof (alloc_lookup_new 0 h) as Hnew.
  pose proof (alloc_lookup_old 0 h) as Hold.
  rewrite Halloc in Hfresh, Hnew, Hold. auto.
Qed.

Lemma invocations_of_replicate c n : invocations_of c (replicate n c) = n.
Proof.
  unfold invocations_of. induction n as [|n IH]; [reflexivity|].
  cbn [replicate]. rewrite filter_cons_True by reflexivity.
  cbn [length]. f_equal. exact IH.
Qed.

Lemma all_live_replicate (h : gmap loc Z) c n :
  is_Some (h !! count c) -> all_live (replicate n c) h.
Proof. intros Hc d Hd. apply elem_of_replicate in Hd as [-> _]. exact Hc. Qed.

Lemma all_live_without (h : gmap loc Z) c' cs :
  all_live cs h -> all_live (filter (fun d => d <> c') cs) h.
Proof. intros Hlive d Hd. apply Hlive. apply list_elem_of_filter in Hd. tauto. Qed.

(** C3, as the code has it.  [Closure()] declares a fresh [count] holding
    zero and touches no other variable; two calls give two distinct
    variables.  In any run, the n-th invocation of a counter created at zero
    returns n for every n up to the largest [int], so its values increase
    strictly over that range.  The values a counter returns are the same
    with and without the invocations of any other counter. *)
Theorem Closure_counters :
  (forall h c h1, Closure h = (c, h1) ->
     h !! count c = None /\ h1 !! count c = Some 0 /\
     (forall l, is_Some (h !! l) -> h1 !! l = h !! l)) /\
  (forall h c1 h1 c2 h2, Closure h = (c1, h1) -> Closure h1 = (c2, h2) ->
     c1 <> c2 /\ h2 !! count c1 = Some 0 /\ h2 !! count c2 = Some 0) /\
  (forall h c cs, h !! count c = Some 0 -> all_live cs h ->
     exists rs h',
       invoke_all sz cs h = Some (rs, h') /\
       length (returned_by c rs) = invocations_of c cs /\
       (forall n, (1 <= n <= invocations_of c cs)%nat ->
          Z.of_nat n <= MaxInt sz ->
          returned_by c rs !! (n - 1)%nat = Some (Z.of_nat n)) /\
       (forall i j vi vj, (i < j)%nat -> Z.of_nat j < MaxInt sz ->
          returned_by c rs !! i = Some vi ->
          returned_by c rs !! j = Some vj -> vi < vj)) /\
  (forall h c c' cs, c <> c' -> is_Some (h !! count c) -> all_live cs h ->
     exists rs h1 rs' h1',
       invoke_all sz cs h = Some (rs, h1) /\
       invoke_all sz (filter (fun d => d <> c') cs) h = Some (rs', h1') /\
       returned_by c rs = returned_by c rs').
Proof.
  split; [exact Closure_creates|]. split; [|split].
  - intros h c1 h1 c2 h2 H1 H2.
    destruct (Closure_creates _ _ _ H1) as (_ & Hzero1 & _).
    destruct (Closure_creates _ _ _ H2) as (Hfresh2 & Hzero2 & Hold2).
    split; [intros ->; congruence|].
    split; [|exact Hzero2]. rewrite Hold2; eauto.
  - intros h c cs Hc Hlive.
    destruct (invoke_all_returns sz cs h c 0 Hc Hlive) as (rs & h' & Hrun & Hrs).
    exists rs, h'. split; [exact Hrun|]. rewrite Hrs.
    assert (forall k v,
              ((fun k => wrap sz (0 + Z.of_nat k)) <$> seq 1 (invocations_of c cs))
                !! k = Some v ->
              (k < invocations_of c cs)%nat /\ v = wrap sz (Z.of_nat (S k)))
      as Hlookup.
    { intros k v Hk. rewrite list_lookup_fmap in Hk.
      destruct (seq 1 (invocations_of c cs) !! k) as [m|] eqn:Hm; [|discriminate].
      apply lookup_seq in Hm as [-> Hlt]. injection Hk as <-. auto. }
    split; [rewrite length_fmap; apply length_seq|]. split.
    + intros n Hn Hmax. rewrite list_lookup_fmap, lookup_seq_lt by lia.
      cbn [fmap option_fmap option_map]. f_equal.
      replace (0 + Z.of_nat (1 + (n - 1))) with (Z.of_nat n) by lia.
      apply wrap_exact. unfold in_range, MinInt, MaxInt in *.
      pose proof (half_modulus_pos sz). lia.
    + intros i j vi vj Hij Hmax Hi Hj.
      apply Hlookup in Hi as [_ ->]. apply Hlookup in Hj as [_ ->].
      pose proof (half_modulus_pos sz).
      rewrite !wrap_exact by (unfold in_range, MinInt, MaxInt in *; lia). lia.
  - intros h c c' cs Hne [v0 Hc] Hlive.
    destruct (invoke_all_returns sz cs h c v0 Hc Hlive) as (rs & h1 & Hrun & Hrs).
    destruct (invoke_all_returns sz (filter (fun d => d <> c') cs) h c v0 Hc)
      as (rs' & h1' & Hrun' & Hrs'); [apply all_live_without, Hlive|].
    exists rs, h1, rs', h1'. split; [exact Hrun|]. split; [exact Hrun'|].
    rewrite Hrs, Hrs', invocations_of_without by exact Hne. reflexivity.
Qed.

End ClosureCounters.

(** [TestClosure]: three calls of [counter1], two of [counter2], then
    [counter1] again. *)
Example TestClosure :
  let (counter1, h) := Functions.Closure ∅ in
  let (counter2, h) := Functions.Closure h in
  fst <$> Functions.invoke_all Int64
    [counter1; counter1; counter1; counter2; counter2; counter1] h
  = Some [(counter1, 1); (counter1, 2); (counter1, 3);
          (counter2, 1); (counter2, 2); (counter1, 4)].
Proof. reflexivity. Qed.

(** C3, as stated, fails once a counter has been invoked as often as the
    largest [int]: the next invocation wraps to the most negative [int],
    which is neither its index nor above the value before it. *)
Lemma Closure_counter_overflow :
  (exists rs h',
      Functions.invoke_all Int32
        (replicate (Z.to_nat 2147483648) (Functions.Closure ∅).1)
        (Functions.Closure ∅).2 = Some (rs, h') /\
      returned_by (Functions.Closure ∅).1 rs !! Z.to_nat 2147483646
        = Some 2147483647 /\
      returned_by (Functions.Closure ∅).1 rs !! Z.to_nat 2147483647
        = Some (-2147483648) /\
      returned_by (Functions.Closure ∅).1 rs !! Z.to_nat 2147483647
        <> Some 2147483648 /\
      ~ 2147483647 < -2147483648) /\
  (exists rs h',
      Functions.invoke_all Int64
        (replicate (Z.to_nat 9223372036854775808) (Functions.Closure ∅).1)
        (Functions.Closure ∅).2 = Some (rs, h') /\
      returned_by (Functions.Closure ∅).1 rs !! Z.to_nat 9223372036854775806
        = Some 9223372036854775807 /\
      returned_by (Functions.Closure ∅).1 rs !! Z.to_nat 9223372036854775807
        = Some (-9223372036854775808) /\
      returned_by (Functions.Closure ∅).1 rs !! Z.to_nat 9223372036854775807
        <> Some 9223372036854775808 /\
      ~ 9223372036854775807 < -9223372036854775808).
Proof.
  assert ((Functions.Closure ∅).2 !! Functions.count (Functions.Closure ∅).1
          = Some 0) as Hzero by reflexivity.
  split.
  - destruct (invoke_all_returns Int32
                (replicate (Z.to_nat 2147483648) (Functions.Closure ∅).1)
                _ _ 0 Hzero) as (rs & h' & Hrun & Hrs).
    { apply all_live_replicate. eauto. }
    exists rs, h'. split; [exact Hrun|].
    rewrite Hrs, invocations_of_replicate, !list_lookup_fmap.
    rewrite !lookup_seq_lt by lia. cbn [fmap option_fmap option_map].
    replace (0 + Z.of_nat (1 + Z.to_nat 2147483646)) with 2147483647 by lia.
    replace (0 + Z.of_nat (1 + Z.to_nat 2147483647)) with 2147483648 by lia.
    change (wrap Int32 2147483647) with 2147483647.
    change (wrap Int32 2147483648) with (-2147483648).
    repeat split; discriminate || lia.
  - destruct (invoke_all_returns Int64
                (replicate (Z.to_nat 9223372036854775808) (Functions.Closure ∅).1)
                _ _ 0 Hzero) as (rs & h' & Hrun & Hrs).
    { apply all_live_replicate. eauto. }
    exists rs, h'. split; [exact Hrun|].
    rewrite Hrs, invocations_of_replicate, !list_lookup_fmap.
    rewrite !lookup_seq_lt by lia. cbn [fmap option_fmap option_map].
    replace (0 + Z.of_nat (1 + Z.to_nat 9223372036854775806))
      with 9223372036854775807 by lia.
    replace (0 + Z.of_nat (1 + Z.to_nat 9223372036854775807))
      with 9223372036854775808 by lia.
    change (wrap Int64 9223372036854775807) with 9223372036854775807.
    change (wrap Int64 9223372036854775808) with (-9223372036854775808).
    repeat split; discriminate || lia.
Qed.

(* ===================================================================== *)
(** * Package [collections]: arrays are values *)
(* ===================================================================== *)

Section Arrays.
Import Collections.
Implicit Types (h : gmap loc (list Z)) (arr : list Z).

Lemma store_index_live h a arr i v :
  h !! a = Some arr -> (i < length arr)%nat ->
  store_index a i v h = Some (<[a := <[i := v]> arr]> h).
Proof.
  intros Ha Hi. unfold store_index, load. rewrite Ha. cbn [mbind option_bind].
  rewrite decide_True by exact Hi. apply update_live, Ha.
Qed.

(** An index outside the array stops the program instead of writing. *)
Lemma store_index_out_of_range h a arr i v :
  h !! a = Some arr -> (length arr <= i)%nat -> store_index a i v h = None.
Proof.
  intros Ha Hi. unfold store_index, load. rewrite Ha. cbn [mbind option_bind].
  apply decide_False. lia.
Qed.

Lemma bigArray_len_pos : (0 < bigArray_len)%nat.
Proof. unfold bigArray_len. lia. Qed.

(** [dst := src; dst[i] = v] writes to the new variable only. *)
Lemma copy_then_write h src arr i v :
  h !! src = Some arr -> (i < length arr)%nat ->
  exists dst h1 h2,
    declare_copy src h = Some (dst, h1) /\
    store_index dst i v h1 = Some h2 /\
    dst <> src /\
    h2 !! src = Some arr /\
    h2 !! dst = Some (<[i := v]> arr) /\
    (forall l, is_Some (h !! l) -> h2 !! l = h !! l).
Proof.
  intros Hsrc Hi. unfold declare_copy, load. rewrite Hsrc.
  cbn [mbind option_bind].
  destruct (alloc arr h) as [dst h1] eqn:Halloc.
  pose proof (alloc_lookup_new arr h) as Hnew.
  pose proof (alloc_lookup_old arr h) as Hold.
  pose proof (alloc_distinct arr h) as Hdistinct.
  rewrite Halloc in Hnew, Hold, Hdistinct. cbn [fst snd] in *.
  exists dst, h1, (<[dst := <[i := v]> arr]> h1).
  assert (forall l, is_Some (h !! l) ->
                    <[dst := <[i := v]> arr]> h1 !! l = h !! l) as Hframe.
  { intros l Hl. rewrite lookup_insert_ne by (apply Hdistinct, Hl).
    apply Hold, Hl. }
  split; [reflexivity|].
  split; [apply store_index_live; assumption|].
  split; [apply Hdistinct; eauto|].
  split; [rewrite Hframe by eauto; exact Hsrc|].
  split; [apply lookup_insert_eq | exact Hframe].
Qed.

Lemma ArrayBasics_result h :
  exists vars h',
    ArrayBasics h = Some (vars, h') /\
    h' !! primes vars = Some [2; 3; 5; 7; 11] /\
    h' !! copyOfPrimes vars = Some [100; 3; 5; 7; 11] /\
    h' !! numbers vars = Some [0; 0; 42; 0; 0] /\
    (forall l, is_Some (h !! l) -> h' !! l = h !! l).
Proof.
  unfold ArrayBasics.
  destruct (alloc (replicate 5 0) h) as [numbers h1] eqn:A1.
  destruct (alloc [2; 3; 5; 7; 11] h1) as [primes h2] eqn:A2.
  destruct (alloc [0; 10; 0; 0; 0; 50; 0; 0; 0; 90] h2) as [sparse h3] eqn:A3.
  pose proof (alloc_lookup_new (replicate 5 0) h) as N1.
  pose proof (alloc_lookup_old (replicate 5 0) h) as O1.
  pose proof (alloc_lookup_new [2; 3; 5; 7; 11] h1) as N2.
  pose proof (alloc_lookup_old [2; 3; 5; 7; 11] h1) as O2.
  pose proof (alloc_lookup_new [0; 10; 0; 0; 0; 50; 0; 0; 0; 90] h2) as N3.
  pose proof (alloc_lookup_old [0; 10; 0; 0; 0; 50; 0; 0; 0; 90] h2) as O3.
  rewrite A1 in N1, O1. rewrite A2 in N2, O2. rewrite A3 in N3, O3.
  cbn [fst snd] in *.
  assert (h3 !! numbers = Some (replicate 5 0)) as Hnumbers.
  { rewrite O3, O2; rewrite ?O2; eauto. }
  assert (h3 !! primes = Some [2; 3; 5; 7; 11]) as Hprimes.
  { rewrite O3; eauto. }
  rewrite (store_index_live _ _ _ _ _ Hnumbers) by (cbn; lia).
  cbn [mbind option_bind].
  set (h4 := <[numbers := <[2%nat := 42]> (replicate 5 0)]> h3).
  assert (numbers <> primes) as Hnp.
  { intros ->. pose proof (alloc_fresh [2; 3; 5; 7; 11] h1) as F.
    rewrite A2 in F. cbn [fst] in F. congruence. }
  assert (h4 !! primes = Some [2; 3; 5; 7; 11]) as Hprimes4.
  { unfold h4. rewrite lookup_insert_ne by exact Hnp. exact Hprimes. }
  destruct (copy_then_write h4 primes _ 0%nat 100 Hprimes4)
    as (copy & h5 & h6 & -> & Hwrite & Hne & Hsrc & Hdst & Hframe);
    [cbn; lia|].
  cbn [mbind option_bind]. rewrite Hwrite. cbn [mbind option_bind].
  eexists _, _. split; [reflexivity|]. cbn [Collections.primes
    Collections.copyOfPrimes Collections.numbers].
  split; [exact Hsrc|]. split; [exact Hdst|]. split.
  - rewrite Hframe; unfold h4; rewrite lookup_insert_eq; eauto.
  - intros l Hl.
    assert (is_Some (h3 !! l)) as Hl3.
    { rewrite O3, O2, O1; rewrite ?O2, ?O1; rewrite ?O1; eauto. }
    assert (l <> numbers) as Hln.
    { intros ->. pose proof (alloc_fresh (replicate 5 0) h) as F.
      rewrite A1 in F. cbn [fst] in F. destruct Hl as [? Hl]. congruence. }
    rewrite Hframe; unfold h4; rewrite lookup_insert_ne by congruence.
    + rewrite O3, O2, O1; rewrite ?O2, ?O1; rewrite ?O1; eauto.
    + exact Hl3.
Qed.

Lemma call_modifyArrayCopy_frame h bigArray arr :
  h !! bigArray = Some arr -> (0 < length arr)%nat ->
  exists h',
    call_modifyArrayCopy bigArray h = Some h' /\
    (forall l, is_Some (h !! l) -> h' !! l = h !! l).
Proof.
  intros Hbig Hlen. unfold call_modifyArrayCopy, load. rewrite Hbig.
  cbn [mbind option_bind]. unfold modifyArrayCopy.
  destruct (alloc arr h) as [param h1] eqn:Halloc.
  pose proof (alloc_lookup_new arr h) as Hnew.
  pose proof (alloc_lookup_old arr h) as Hold.
  pose proof (alloc_distinct arr h) as Hdistinct.
  rewrite Halloc in Hnew, Hold, Hdistinct. cbn [fst snd] in *.
  rewrite (store_index_live _ _ _ _ _ Hnew) by exact Hlen.
  eexists. split; [reflexivity|].
  intros l Hl. rewrite lookup_insert_ne by (apply Hdistinct, Hl).
  apply Hold, Hl.
Qed.

Lemma call_modifyArrayPointer_writes h bigArray arr :
  h !! bigArray = Some arr -> (0 < length arr)%nat ->
  call_modifyArrayPointer bigArray h
  = Some (<[bigArray := <[0%nat := 999]> arr]> h).
Proof.
  intros Hbig Hlen. unfold call_modifyArrayPointer, modifyArrayPointer.
  apply store_index_live; assumption.
Qed.

Lemma load_index_live h a arr i :
  h !! a = Some arr -> load_index a i h = arr !! i.
Proof. intros Ha. unfold load_index, load. rewrite Ha. reflexivity. Qed.

(** [ArrayOperations] prints 42, 42 and 999 for [bigArray[0]]. *)
Lemma ArrayOperations_bigArray_result h :
  exists h', ArrayOperations_bigArray h = Some (42, 42, 999, h').
Proof.
  unfold ArrayOperations_bigArray.
  destruct (alloc (replicate bigArray_len 0) h) as [bigArray h1] eqn:Halloc.
  pose proof (alloc_lookup_new (replicate bigArray_len 0) h) as Hnew.
  rewrite Halloc in Hnew. cbn [fst snd] in Hnew.
  pose proof bigArray_len_pos as Hpos.
  rewrite (store_index_live _ _ _ _ _ Hnew) by (rewrite length_replicate; lia).
  cbn [mbind option_bind].
  set (arr := <[0%nat := 42]> (replicate bigArray_len 0)).
  assert (length arr = bigArray_len) as Hlen.
  { unfold arr. rewrite length_insert. apply length_replicate. }
  assert (arr !! 0%nat = Some 42) as Hfirst.
  { unfold arr. apply list_lookup_insert_eq. rewrite length_replicate. lia. }
  set (h2 := <[bigArray := arr]> h1).
  assert (h2 !! bigArray = Some arr) as Hbig by apply lookup_insert_eq.
  rewrite (load_index_live _ _ _ _ Hbig), Hfirst. cbn [mbind option_bind].
  destruct (call_modifyArrayCopy_frame h2 bigArray arr Hbig)
    as (h3 & -> & Hframe); [lia|].
  cbn [mbind option_bind].
  assert (h3 !! bigArray = Some arr) as Hbig3 by (rewrite Hframe; eauto).
  rewrite (load_index_live _ _ _ _ Hbig3), Hfirst. cbn [mbind option_bind].
  rewrite (call_modifyArrayPointer_writes _ _ _ Hbig3) by lia.
  cbn [mbind option_bind].
  rewrite (load_index_live _ _ (<[0%nat := 999]> arr)) by apply lookup_insert_eq.
  rewrite list_lookup_insert_eq by lia. cbn [mbind option_bind].
  eexists. reflexivity.
Qed.

(** C7. Declaring an array variable from another copies the elements: a
    later write through the new variable leaves the original, element by
    element, as it was; in [ArrayBasics], after [copyOfPrimes := primes] and
    [copyOfPrimes[0] = 100], [primes] is still 2, 3, 5, 7, 11.
    [modifyArrayCopy(bigArray)] leaves the caller's array (and every other
    variable) unchanged; [modifyArrayPointer(&bigArray)] sets element 0 of
    the caller's array to 999 and leaves its other elements unchanged. *)
Theorem arrays_are_values :
  (forall h src arr i v,
     h !! src = Some arr -> (i < length arr)%nat ->
     exists dst h1 h2,
       declare_copy src h = Some (dst, h1) /\
       store_index dst i v h1 = Some h2 /\
       dst <> src /\
       h2 !! src = Some arr /\
       h2 !! dst = Some (<[i := v]> arr)) /\
  (forall h, exists vars h',
     ArrayBasics h = Some (vars, h') /\
     h' !! primes vars = Some [2; 3; 5; 7; 11] /\
     h' !! copyOfPrimes vars = Some [100; 3; 5; 7; 11]) /\
  (forall h bigArray arr,
     h !! bigArray = Some arr -> length arr = bigArray_len ->
     exists h',
       call_modifyArrayCopy bigArray h = Some h' /\
       h' !! bigArray = Some arr /\
       (forall i, load_index bigArray i h' = load_index bigArray i h)) /\
  (forall h bigArray arr,
     h !! bigArray = Some arr -> length arr = bigArray_len ->
     exists h',
       call_modifyArrayPointer bigArray h = Some h' /\
       load_index bigArray 0 h' = Some 999 /\
       (forall i, i <> 0%nat ->
          load_index bigArray i h' = load_index bigArray i h) /\
       (arr !! 0%nat <> Some 999 -> h' !! bigArray <> Some arr)) /\
  (forall h, exists h', ArrayOperations_bigArray h = Some (42, 42, 999, h')).
Proof.
  split; [|split; [|split; [|split]]].
  - intros h src arr i v Hsrc Hi.
    destruct (copy_then_write h src arr i v Hsrc Hi)
      as (dst & h1 & h2 & ? & ? & ? & ? & ? & _).
    exists dst, h1, h2. auto.
  - intros h. destruct (ArrayBasics_result h) as (vars & h' & ? & ? & ? & _).
    exists vars, h'. auto.
  - intros h bigArray arr Hbig Hlen. pose proof bigArray_len_pos.
    destruct (call_modifyArrayCopy_frame h bigArray arr Hbig)
      as (h' & Hcall & Hframe); [lia|].
    assert (h' !! bigArray = Some arr) as Hsame by (rewrite Hframe; eauto).
    exists h'. split; [exact Hcall|]. split; [exact Hsame|].
    intros i. rewrite (load_index_live _ _ _ _ Hsame).
    rewrite (load_index_live _ _ _ _ Hbig). reflexivity.
  - intros h bigArray arr Hbig Hlen. pose proof bigArray_len_pos.
    eexists. split; [apply call_modifyArrayPointer_writes; [eassumption|lia]|].
    assert (<[bigArray := <[0%nat := 999]> arr]> h !! bigArray
            = Some (<[0%nat := 999]> arr)) as Hnew by apply lookup_insert_eq.
    split; [|split].
    + rewrite (load_index_live _ _ _ _ Hnew).
      apply list_lookup_insert_eq. lia.
    + intros i Hi. rewrite (load_index_live _ _ _ _ Hnew).
      rewrite (load_index_live _ _ _ _ Hbig).
      apply list_lookup_insert_ne. congruence.
    + intros Hfirst. rewrite Hnew. intros [= Heq]. apply Hfirst.
      rewrite <- Heq. apply list_lookup_insert_eq. lia.
  - exact ArrayOperations_bigArray_result.
Qed.

End Arrays.

(* ===================================================================== *)
(** * Package [loops]: ranging over a channel *)
(* ===================================================================== *)

(** The values the producer sends, in order. *)
Definition tens : list Z := [10; 20; 30; 40; 50].

(** What a producer at a given point of its loop has sent so far. *)
Definition producer_progress (p : Loops.producer) (sent : list Z) : Prop :=
  match p with
  | Loops.PSend i => 1 <= i <= 6 /\ sent = take (Z.to_nat (i - 1)) tens
  | Loops.PPrint i => 1 <= i <= 5 /\ sent = take (Z.to_nat i) tens
  | Loops.PClose | Loops.PDone => sent = tens
  end.

Definition producer_done (p : Loops.producer) : bool :=
  match p with Loops.PDone => true | _ => false end.

(** The states [RangeOverChannel] can be in once the goroutine is started:
    one producer, one channel of capacity 5, every value sent is either
    received or still queued, and the channel is closed exactly when the
    producer has returned. *)
Definition running (s : Loops.state) : Prop :=
  exists p ch,
    Loops.goroutines s = [p] /\
    Loops.numbers s = Some ch /\
    Loops.cap ch = 5%nat /\
    Loops.received s ++ Loops.buf ch = Loops.sent s /\
    producer_progress p (Loops.sent s) /\
    Loops.closed ch = producer_done p /\
    (Loops.main s = Loops.CExit \/ Loops.main s = Loops.CDone ->
     Loops.closed ch = true /\ Loops.buf ch = []).

Definition invariant (s : Loops.state) : Prop :=
  (Loops.main s = Loops.CStart /\ s = Loops.initial) \/
  (Loops.main s <> Loops.CStart /\ running s).

Section RangeOverChannel.
Import Loops.

Lemma sum_list_with_insert {A} (f : A -> nat) (l : list A) k x y :
  l !! k = Some x ->
  (sum_list_with f (<[k := y]> l) + f x = sum_list_with f l + f y)%nat.
Proof.
  revert k. induction l as [|a l IH]; intros [|k] Hk; try discriminate.
  - injection Hk as ->. cbn. lia.
  - change (<[S k := y]> (a :: l)) with (a :: <[k := y]> l).
    cbn [sum_list_with]. specialize (IH k Hk). lia.
Qed.

(** Every step uses up at least one of the steps left. *)
Lemma step_decreases s s' : step s s' -> (steps_left s' < steps_left s)%nat.
Proof.
  intros Hstep. unfold steps_left, pending, queued.
  destruct Hstep as
    [s Hm | s Hm | s ch v rest Hm Hch Hbuf | s ch Hm Hch Hbuf Hcl
    | s num Hm | s Hm
    | s k i ch Hk Hi Hch Hcl Hcap | s k i Hk | s k i Hk Hi | s k ch Hk Hch Hcl];
    cbn [main goroutines numbers buf]; rewrite ?Hm, ?Hch, ?Hbuf;
    cbn [consumer_left length].
  - rewrite !sum_list_with_app. cbn. destruct (numbers s); lia.
  - lia.
  - lia.
  - lia.
  - lia.
  - lia.
  - pose proof (sum_list_with_insert sends_left _ _ _ (PPrint i) Hk) as Hs.
    pose proof (sum_list_with_insert producer_left _ _ _ (PPrint i) Hk) as Hp.
    cbn [sends_left producer_left] in Hs, Hp. rewrite length_app. cbn [length].
    destruct (main s); cbn [consumer_left]; lia.
  - pose proof (sum_list_with_insert sends_left _ _ _ (PSend (i + 1)) Hk) as Hs.
    pose proof (sum_list_with_insert producer_left _ _ _ (PSend (i + 1)) Hk) as Hp.
    cbn [sends_left producer_left] in Hs, Hp.
    replace (6 - (i + 1)) with (5 - i) in Hs, Hp by lia.
    destruct (main s), (numbers s); cbn [consumer_left]; lia.
  - pose proof (sum_list_with_insert sends_left _ _ _ PClose Hk) as Hs.
    pose proof (sum_list_with_insert producer_left _ _ _ PClose Hk) as Hp.
    cbn [sends_left producer_left] in Hs, Hp.
    destruct (main s), (numbers s); cbn [consumer_left]; lia.
  - pose proof (sum_list_with_insert sends_left _ _ _ PDone Hk) as Hs.
    pose proof (sum_list_with_insert producer_left _ _ _ PDone Hk) as Hp.
    cbn [sends_left producer_left] in Hs, Hp.
    destruct (main s); cbn [consumer_left]; lia.
Qed.

Lemma run_bounded n s s' :
  nsteps step n s s' -> (n + steps_left s' <= steps_left s)%nat.
Proof.
  induction 1 as [s | n s s1 s' Hstep _ IH]; [lia|].
  apply step_decreases in Hstep. lia.
Qed.

Lemma invariant_initial : invariant initial.
Proof. left. split; reflexivity. Qed.

Lemma take_tens_snoc i :
  1 <= i <= 5 ->
  take (Z.to_nat (i - 1)) tens ++ [i * 10] = take (Z.to_nat i) tens.
Proof.
  intros Hi.
  assert (i = 1 \/ i = 2 \/ i = 3 \/ i = 4 \/ i = 5) as Hcases by lia.
  repeat (destruct Hcases as [-> | Hcases]; [reflexivity|]).
  subst i. reflexivity.
Qed.

(** Settles the clause of [running] about the end of the range loop: either
    the consumer is not there, or the clause [Hfin] of the state before
    applies. *)
Ltac at_exit Hfin :=
  match goal with
  | H : _ = CExit \/ _ = CDone |- _ =>
      first
        [ solve [destruct H as [H | H]; cbn in H; (discriminate H || congruence)]
        | solve [cbn in H; apply Hfin in H as [? ?]; (assumption || congruence)] ]
  end.

Lemma step_preserves s s' : invariant s -> step s s' -> invariant s'.
Proof.
  intros [[Hmain ->] | [Hmain (p & ch & Hg & Hch & Hcap & Hq & Hp & Hcl & Hfin)]]
         Hstep.
  - (* from the initial state only [go] can run *)
    inversion Hstep; subst; try discriminate.
    right. split; [cbn; discriminate|].
    exists (PSend 1), {| buf := []; cap := 5; closed := false |}. cbn.
    repeat split; try reflexivity; try lia; at_exit I.
  - destruct Hstep as
      [s Hm | s Hm | s ch0 v rest Hm Hch0 Hbuf | s ch0 Hm Hch0 Hbuf Hcl0
      | s num Hm | s Hm
      | s k i ch0 Hk Hi Hch0 Hcl0 Hcap0 | s k i Hk | s k i Hk Hi
      | s k ch0 Hk Hch0 Hcl0];
      try (rewrite Hch in Hch0; injection Hch0 as <-);
      try (rewrite Hg in Hk; apply list_lookup_singleton_Some in Hk as [-> ->]);
      right; (split; [cbn; congruence|]).
    + congruence.
    + exists p, ch. cbn. repeat split; auto; at_exit Hfin.
    + exists p, {| buf := rest; cap := cap ch; closed := closed ch |}. cbn.
      repeat split; auto; try at_exit Hfin.
      rewrite <- Hq, Hbuf, <- app_assoc. reflexivity.
    + exists p, ch. cbn. repeat split; auto.
    + exists p, ch. cbn. repeat split; auto; at_exit Hfin.
    + exists p, ch. cbn. repeat split; auto; apply Hfin; auto.
    + destruct Hp as [Hrange Hsent].
      exists (PPrint i),
        {| buf := buf ch ++ [i * 10]; cap := cap ch; closed := closed ch |}.
      rewrite Hg. cbn.
      repeat split; auto; try lia; try at_exit Hfin.
      * rewrite <- Hq, <- app_assoc. reflexivity.
      * rewrite Hsent. apply take_tens_snoc. lia.
    + destruct Hp as [Hrange Hsent].
      exists (PSend (i + 1)), ch. rewrite Hg. cbn.
      repeat split; auto; try lia; try at_exit Hfin.
      rewrite Hsent. do 2 f_equal. lia.
    + destruct Hp as [Hrange Hsent].
      exists PClose, ch. rewrite Hg. cbn.
      repeat split; auto; try at_exit Hfin.
      rewrite Hsent. assert (i = 6) as -> by lia. reflexivity.
    + exists PDone, {| buf := buf ch; cap := cap ch; closed := true |}.
      rewrite Hg. cbn.
      repeat split; auto; at_exit Hfin.
Qed.

Lemma run_invariant n s : nsteps step n initial s -> invariant s.
Proof.
  revert s. induction n as [|n IH]; intros s Hrun.
  - inversion Hrun; subst. apply invariant_initial.
  - apply nsteps_inv_r in Hrun as (s0 & Hrun & Hstep).
    eapply step_preserves; eauto.
Qed.

(** No deadlock: until the caller has returned some goroutine can move. *)
Lemma progress s : invariant s -> main s = CDone \/ exists s', step s s'.
Proof.
  intros [[Hmain ->] | [Hmain (p & ch & Hg & Hch & Hcap & Hq & Hp & Hcl & Hfin)]].
  - right. eexists. apply step_start. reflexivity.
  - destruct (main s) eqn:Hm.
    + congruence.
    + right. eexists. apply step_header. exact Hm.
    + right. destruct (buf ch) as [|v rest] eqn:Hbuf.
      * destruct (closed ch) eqn:Hclosed.
        { eexists. eapply step_range_end; eauto. }
        destruct p as [i | i | |]; cbn in Hcl; try discriminate.
        { destruct (Z_le_gt_dec i 5).
          - eexists. eapply (step_send s 0 i ch); eauto.
            + rewrite Hg. reflexivity.
            + rewrite Hbuf, Hcap. cbn. lia.
          - eexists. eapply (step_loop_end s 0 i); [|lia].
            rewrite Hg. reflexivity. }
        { eexists. eapply (step_sent s 0 i). rewrite Hg. reflexivity. }
        { eexists. eapply (step_close s 0 ch); eauto.
          rewrite Hg. reflexivity. }
      * eexists. eapply step_receive; eauto.
    + right. eexists. eapply step_body. exact Hm.
    + right. eexists. apply step_exit. exact Hm.
    + left. reflexivity.
Qed.

Lemma after_the_loop s :
  invariant s -> main s = CExit \/ main s = CDone ->
  received s = tens /\ sent s = tens /\ goroutines s = [PDone] /\
  exists ch, numbers s = Some ch /\ closed ch = true /\ buf ch = [].
Proof.
  intros [[Hmain ->] | [Hmain (p & ch & Hg & Hch & Hcap & Hq & Hp & Hcl & Hfin)]]
         Hend.
  - destruct Hend; discriminate.
  - destruct (Hfin Hend) as [Hclosed Hbuf].
    rewrite Hclosed in Hcl. destruct p; try discriminate.
    cbn in Hp. rewrite Hbuf, app_nil_r in Hq.
    repeat split; try congruence. exists ch. auto.
Qed.

Lemma producer_progress_prefix p sent :
  producer_progress p sent -> sent `prefix_of` tens.
Proof.
  destruct p; cbn; intros H; try (rewrite H; reflexivity);
    destruct H as [_ ->]; apply prefix_take.
Qed.

(** C5. In every execution of [RangeOverChannel], whatever the schedule and
    however long: at most 26 steps are taken; once started there is exactly
    one producer goroutine and one channel of capacity 5, never holding more
    than 5 values; what has been sent is a prefix of 10, 20, 30, 40, 50 and
    what has been received a prefix of what has been sent; the channel is
    closed only after all five values were sent; the range loop is left only
    with the channel closed and drained, the producer returned,
    and exactly those five values sent and received in order; and until the
    caller has returned some goroutine can move, so every execution ends
    there. *)
Theorem RangeOverChannel_spec (n : nat) (s : state)
    (Hrun : nsteps step n initial s) :
  (n + steps_left s <= 26)%nat /\
  (main s <> CStart ->
     exists p ch, goroutines s = [p] /\ numbers s = Some ch /\
                  cap ch = 5%nat /\ (length (buf ch) <= 5)%nat) /\
  sent s `prefix_of` tens /\
  received s `prefix_of` sent s /\
  (forall ch, numbers s = Some ch -> closed ch = true ->
     sent s = tens /\ goroutines s = [PDone]) /\
  (main s = CExit \/ main s = CDone ->
     received s = tens /\ sent s = tens /\ goroutines s = [PDone] /\
     exists ch, numbers s = Some ch /\ closed ch = true /\ buf ch = []) /\
  (main s = CDone \/ exists s', step s s') /\
  (terminal s -> main s = CDone /\ received s = tens).
Proof.
  pose proof (run_bounded _ _ _ Hrun) as Hbound.
  pose proof (run_invariant _ _ Hrun) as Hinv.
  split; [exact Hbound|].
  assert (sent s `prefix_of` tens /\ received s `prefix_of` sent s) as [Hs Hr].
  { destruct Hinv as [[_ ->] | [_ (p & ch & _ & _ & _ & Hq & Hp & _)]].
    - split; apply prefix_nil.
    - split; [eapply producer_progress_prefix, Hp|].
      rewrite <- Hq. apply prefix_app_r. reflexivity. }
  split; [|split; [exact Hs|split; [exact Hr|split; [|split; [|split]]]]].
  - intros Hmain.
    destruct Hinv as [[? _] | [_ (p & ch & Hg & Hch & Hcap & Hq & _)]];
      [contradiction|].
    exists p, ch. repeat split; auto.
    apply prefix_length in Hs. rewrite <- Hq, length_app in Hs.
    cbn in Hs. lia.
  - intros ch Hch Hclosed.
    destruct Hinv as [[_ ->] | [_ (p & ch' & Hg & Hch' & _ & _ & Hp & Hcl & _)]];
      [discriminate|].
    rewrite Hch in Hch'. injection Hch' as <-.
    rewrite Hclosed in Hcl. destruct p; try discriminate. auto.
  - apply after_the_loop, Hinv.
  - apply progress, Hinv.
  - intros Hterminal.
    destruct (progress s Hinv) as [Hdone | [s' Hstep]].
    + split; [exact Hdone|]. apply after_the_loop; auto.
    + destruct (Hterminal s' Hstep).
Qed.

End RangeOverChannel.

(** One schedule in full: the producer runs to completion before the range
    loop starts (the order the pause in the demo aims at).  The run takes
    all 26 steps and ends with the caller returned. *)
Example RangeOverChannel_producer_first :
  exists s,
    nsteps Loops.step 26 Loops.initial s /\
    Loops.main s = Loops.CDone /\
    Loops.goroutines s = [Loops.PDone] /\
    Loops.received s = tens /\
    Loops.stdout s
    = (fun line => line +:+ Loops.nl) <$>
      [ "Range over Channel:";
        "  Sent: 10"; "  Sent: 20"; "  Sent: 30"; "  Sent: 40"; "  Sent: 50";
        "  Receiving values:";
        "    Received: 10"; "    Received: 20"; "    Received: 30";
        "    Received: 40"; "    Received: 50";
        "  Channel closed, range loop ended" ].
Proof.
  eexists. split.
  - eapply nsteps_l; [apply Loops.step_start; reflexivity|]. cbn.
    do 5 (eapply nsteps_l;
          [eapply (Loops.step_send _ 0); cbn; try reflexivity; cbn; lia|]; cbn;
          eapply nsteps_l; [eapply (Loops.step_sent _ 0); reflexivity|]; cbn).
    eapply nsteps_l; [eapply (Loops.step_loop_end _ 0); [reflexivity|lia]|]. cbn.
    eapply nsteps_l; [eapply (Loops.step_close _ 0); reflexivity|]. cbn.
    eapply nsteps_l; [apply Loops.step_header; reflexivity|]. cbn.
    do 5 (eapply nsteps_l; [eapply Loops.step_receive; reflexivity|]; cbn;
          eapply nsteps_l; [eapply Loops.step_body; reflexivity|]; cbn).
    eapply nsteps_l; [eapply Loops.step_range_end; reflexivity|]. cbn.
    eapply nsteps_l; [apply Loops.step_exit; reflexivity|]. cbn.
    apply nsteps_O.
  - repeat split.
Qed.

(** The theorem at the end of that run: nothing is left to do and the five
    values were received. *)
Lemma RangeOverChannel_spec_witness :
  exists s,
    nsteps Loops.step 26 Loops.initial s /\
    Loops.steps_left s = 0%nat /\
    Loops.received s = tens.
Proof.
  destruct RangeOverChannel_producer_first as (s & Hrun & Hdone & _).
  exists s. split; [exact Hrun|].
  destruct (RangeOverChannel_spec 26 s Hrun)
    as (Hbound & _ & _ & _ & _ & Hend & _).
  split; [lia | apply Hend; right; exact Hdone].
Defined.

(* ===================================================================== *)
(** * Package [basics]: more on the operators *)
(* ===================================================================== *)

(** ** Two's-complement digits *)

Lemma nonneg_below_pow2_bits k z :
  0 <= k -> 0 <= z ->
  (z < 2 ^ k <-> forall i, k <= i -> Z.testbit z i = false).
Proof.
  intros Hk Hz. split.
  - intros Hlt i Hi. destruct (Z.eq_dec z 0) as [->|Hne]; [apply Z.bits_0|].
    apply Z.bits_above_log2; [lia|].
    assert (Z.log2 z < k) by (apply Z.log2_lt_pow2; lia). lia.
  - intros Hbits. destruct (Z_lt_ge_dec z (2 ^ k)) as [|Hge]; [assumption|].
    assert (0 < z) by (pose proof (Z.pow_pos_nonneg 2 k); lia).
    assert (k <= Z.log2 z) as Hlog by (apply Z.log2_le_pow2; lia).
    specialize (Hbits _ Hlog). rewrite Z.bit_log2 in Hbits by lia. discriminate.
Qed.

(** An integer fits in a signed word of [k+1] digits exactly when its digits
    from position [k] on all repeat its sign. *)
Lemma signed_word_bits k z :
  0 <= k ->
  (- 2 ^ k <= z < 2 ^ k <-> forall i, k <= i -> Z.testbit z i = (z <? 0)).
Proof.
  intros Hk. pose proof (Z.pow_pos_nonneg 2 k ltac:(lia) Hk) as Hpow.
  destruct (Z.ltb_spec z 0) as [Hneg|Hnonneg].
  - assert (0 <= Z.lnot z) as Hl by (unfold Z.lnot; lia).
    pose proof (nonneg_below_pow2_bits k (Z.lnot z) Hk Hl) as Hiff.
    split.
    + intros Hrange i Hi.
      assert (Z.testbit (Z.lnot z) i = false) as Hb
        by (apply Hiff; [unfold Z.lnot; lia | assumption]).
      rewrite Z.lnot_spec in Hb by lia. destruct (Z.testbit z i); [reflexivity | discriminate].
    + intros Hbits.
      assert (Z.lnot z < 2 ^ k); [|unfold Z.lnot in *; lia].
      apply Hiff. intros i Hi. rewrite Z.lnot_spec by lia.
      rewrite Hbits by assumption. reflexivity.
  - pose proof (nonneg_below_pow2_bits k z Hk Hnonneg) as Hiff.
    split.
    + intros Hrange. apply Hiff. lia.
    + intros Hbits. split; [lia|]. apply Hiff, Hbits.
Qed.

(** Every integer fits in some signed word. *)
Lemma signed_word_exists k z : 0 <= k -> exists K, k <= K /\ - 2 ^ K <= z < 2 ^ K.
Proof.
  intros Hk. exists (Z.max k (Z.abs z)). split; [lia|].
  assert (Z.abs z < 2 ^ Z.max k (Z.abs z)); [|lia].
  eapply Z.lt_le_trans; [apply (Z.pow_gt_lin_r 2 (Z.abs z)); lia|].
  apply Z.pow_le_mono_r; lia.
Qed.

(** A digit-wise operation maps signed words to signed words. *)
Lemma signed_word_bitwise (f : bool -> bool -> bool) (op : Z -> Z -> Z) k a b :
  (forall x y i, 0 <= i -> Z.testbit (op x y) i = f (Z.testbit x i) (Z.testbit y i)) ->
  0 <= k ->
  - 2 ^ k <= a < 2 ^ k -> - 2 ^ k <= b < 2 ^ k ->
  - 2 ^ k <= op a b < 2 ^ k.
Proof.
  intros Hop Hk Ha Hb.
  pose proof (proj1 (signed_word_bits k a Hk) Ha) as Hba.
  pose proof (proj1 (signed_word_bits k b Hk) Hb) as Hbb.
  destruct (signed_word_exists k (op a b) Hk) as (K & HK & Hrange).
  pose proof (proj1 (signed_word_bits K (op a b) ltac:(lia)) Hrange K ltac:(lia)) as Hsign.
  rewrite Hop, Hba, Hbb in Hsign by lia.
  apply signed_word_bits; [assumption|]. intros i Hi.
  rewrite Hop, Hba, Hbb by lia. exact Hsign.
Qed.

Section MoreIntFacts.
Context (sz : IntSize).

Lemma wrap_mul_l a b : wrap sz (wrap sz a * b) = wrap sz (a * b).
Proof. rewrite (Z.mul_comm (wrap sz a)), wrap_mul_r. f_equal. lia. Qed.

Lemma wrap_add_r a b : wrap sz (a + wrap sz b) = wrap sz (a + b).
Proof. rewrite (Z.add_comm a), wrap_add_l. f_equal. lia. Qed.

Lemma wrap_sub_l a b : wrap sz (wrap sz a - b) = wrap sz (a - b).
Proof. apply (wrap_add_l sz a (- b)). Qed.

Lemma wrap_wrap a : wrap sz (wrap sz a) = wrap sz a.
Proof. apply wrap_exact, wrap_in_range. Qed.

Lemma in_range_word z :
  in_range sz z <-> - 2 ^ (int_bits sz - 1) <= z < 2 ^ (int_bits sz - 1).
Proof. unfold in_range, MinInt, MaxInt, half_modulus. lia. Qed.

Lemma int_bits_pos : 0 <= int_bits sz - 1.
Proof. destruct sz; cbn; lia. Qed.

Lemma MinInt_lt_MaxInt : MinInt sz < 0 < MaxInt sz.
Proof. destruct sz; split; reflexivity. Qed.

End MoreIntFacts.

Section MoreOperators.
Import Operators.
Context (sz : IntSize).

(** X1. For an [int] [start], [IncrementDecrement] returns [start + 1] and
    [start - 1], except at the ends of the range: at [MaxInt] the increment
    is [MinInt], at [MinInt] the decrement is [MaxInt].  In every case
    decrementing the increment, or incrementing the decrement, gives [start]
    back. *)
Theorem IncrementDecrement_spec (start : Z) (Hstart : in_range sz start) :
  (start <> MaxInt sz -> (IncrementDecrement sz start).1 = start + 1) /\
  (start = MaxInt sz -> (IncrementDecrement sz start).1 = MinInt sz) /\
  (start <> MinInt sz -> (IncrementDecrement sz start).2 = start - 1) /\
  (start = MinInt sz -> (IncrementDecrement sz start).2 = MaxInt sz) /\
  (IncrementDecrement sz (IncrementDecrement sz start).1).2 = start /\
  (IncrementDecrement sz (IncrementDecrement sz start).2).1 = start.
Proof.
  unfold IncrementDecrement. cbn [fst snd].
  pose proof (half_modulus_pos sz) as Hh.
  repeat split.
  - intros Hne. apply add_exact. unfold in_range, MinInt, MaxInt in *. lia.
  - intros ->. destruct sz; reflexivity.
  - intros Hne. apply sub_exact. unfold in_range, MinInt, MaxInt in *. lia.
  - intros ->. destruct sz; reflexivity.
  - unfold sub, add. rewrite wrap_sub_l.
    replace (start + 1 - 1) with start by lia. apply wrap_exact, Hstart.
  - unfold sub, add. rewrite wrap_add_l.
    replace (start - 1 + 1) with start by lia. apply wrap_exact, Hstart.
Qed.

Lemma bitwise_in_range (f : bool -> bool -> bool) (op : Z -> Z -> Z) a b :
  (forall x y i, 0 <= i ->
     Z.testbit (op x y) i = f (Z.testbit x i) (Z.testbit y i)) ->
  in_range sz a -> in_range sz b -> in_range sz (op a b).
Proof.
  intros Hop Ha Hb. apply in_range_word.
  apply (signed_word_bitwise f op); try (apply in_range_word; assumption);
    [exact Hop | apply int_bits_pos].
Qed.

(** X2. For [int]s [a] and [b] the results of [&], [|], [^], unary [^] and
    [>> 1] are [int]s again (nothing wraps), and they are tied to the
    arithmetic of the operands: [(a | b) + (a & b) = a + b],
    [(a | b) - (a & b) = a ^ b] and [^a = -a - 1]. *)
Theorem BitwiseOperations_identities (a b : Z)
    (Ha : in_range sz a) (Hb : in_range sz b) :
  exists andResult orResult xorResult notResult leftShift rightShift,
    BitwiseOperations sz a b
    = (andResult, orResult, xorResult, notResult, leftShift, rightShift) /\
    in_range sz andResult /\ in_range sz orResult /\ in_range sz xorResult /\
    in_range sz notResult /\ in_range sz leftShift /\ in_range sz rightShift /\
    orResult + andResult = a + b /\
    orResult - andResult = xorResult /\
    notResult = - a - 1.
Proof.
  eexists _, _, _, _, _, _. split; [reflexivity|].
  split; [apply (bitwise_in_range andb Z.land); auto using Z.land_spec|].
  split; [apply (bitwise_in_range orb Z.lor); auto using Z.lor_spec|].
  split; [apply (bitwise_in_range xorb Z.lxor); auto using Z.lxor_spec|].
  pose proof (half_modulus_pos sz).
  split; [unfold Z.lnot, in_range, MinInt, MaxInt in *; lia|].
  split; [apply wrap_in_range|].
  split.
  { rewrite Z.shiftr_div_pow2 by lia. change (2 ^ 1) with 2.
    unfold in_range, MinInt, MaxInt in *.
    Z.to_euclidean_division_equations. lia. }
  split; [apply Z.add_lor_land|]. split; [apply Z.sub_lor_land|].
  unfold Z.lnot. lia.
Qed.

(** X3. For an [int] [a], [a << 2] is Go's [a * 4] (the product reduced
    into [int]).  [a >> 1] is [a] halved and rounded down: it is Go's
    [a / 2] exactly when [a] is non-negative or even, and one less than
    [a / 2] for a negative odd [a]. *)
Theorem BitwiseOperations_shifts (a b : Z) (Ha : in_range sz a) :
  exists andResult orResult xorResult notResult leftShift rightShift,
    BitwiseOperations sz a b
    = (andResult, orResult, xorResult, notResult, leftShift, rightShift) /\
    leftShift = mul sz a 4 /\
    2 * rightShift <= a < 2 * rightShift + 2 /\
    (0 <= a \/ Z.even a = true -> quo sz a 2 = Ok rightShift) /\
    (a < 0 -> Z.even a = false -> quo sz a 2 = Ok (rightShift + 1)).
Proof.
  eexists _, _, _, _, _, _. split; [reflexivity|].
  rewrite Z.shiftl_mul_pow2, Z.shiftr_div_pow2 by lia.
  change (2 ^ 2) with 4. change (2 ^ 1) with 2.
  split; [reflexivity|].
  split; [Z.to_euclidean_division_equations; lia|].
  assert (wrap sz (Z.quot a 2) = Z.quot a 2) as Hquot.
  { apply wrap_exact. pose proof (half_modulus_pos sz).
    unfold in_range, MinInt, MaxInt in *.
    Z.to_euclidean_division_equations. lia. }
  rewrite quo_nonzero, Hquot by lia. rewrite Zeven_mod. split.
  - intros Hcase. f_equal.
    destruct (Z.eqb_spec (a mod 2) 0); Z.to_euclidean_division_equations; lia.
  - intros Hneg Hodd. f_equal.
    destruct (Z.eqb_spec (a mod 2) 0); [discriminate|].
    Z.to_euclidean_division_equations. lia.
Qed.

(** X4. For [int]s [x] and [y <> 0] the results of [AllOperations] fit
    together in Go's arithmetic, overflow included: quotient times [y] plus
    remainder is [x], the remainder is smaller than [y] in absolute value
    and has the sign of [x], and undoing the sum or the difference gives [x]
    back. *)
Theorem AllOperations_recombine (x y : Z)
    (Hx : in_range sz x) (Hy : in_range sz y) (Hnz : y <> 0) :
  exists sum difference product quotient remainder,
    AllOperations sz x y = Ok (sum, difference, product, quotient, remainder) /\
    add sz (mul sz quotient y) remainder = x /\
    Z.abs remainder < Z.abs y /\
    (0 <= x -> 0 <= remainder) /\ (x <= 0 -> remainder <= 0) /\
    sub sz sum y = x /\
    add sz difference y = x.
Proof.
  unfold AllOperations. rewrite quo_nonzero, rem_nonzero by assumption.
  eexists _, _, _, _, _. split; [reflexivity|].
  split.
  { unfold add, mul. rewrite wrap_mul_l, wrap_add_l.
    replace (Z.quot x y * y + Z.rem x y) with x
      by (pose proof (Z.quot_rem' x y); lia).
    apply wrap_exact, Hx. }
  split; [Z.to_euclidean_division_equations; lia|].
  split; [Z.to_euclidean_division_equations; lia|].
  split; [Z.to_euclidean_division_equations; lia|].
  split.
  - unfold sub, add. rewrite wrap_sub_l.
    replace (x + y - y) with x by lia. apply wrap_exact, Hx.
  - unfold sub, add. rewrite wrap_add_l.
    replace (x - y + y) with x by lia. apply wrap_exact, Hx.
Qed.

End MoreOperators.

Lemma IncrementDecrement_spec_witness :
  Operators.IncrementDecrement Int64 9223372036854775807
  = (-9223372036854775808, 9223372036854775806).
Proof.
  destruct (IncrementDecrement_spec Int64 9223372036854775807)
    as (_ & Hinc & Hdec & _); [range_closed|].
  rewrite (surjective_pairing (Operators.IncrementDecrement Int64 _)).
  rewrite Hinc, Hdec; [reflexivity | discriminate | reflexivity].
Defined.

Lemma BitwiseOperations_identities_witness :
  Operators.BitwiseOperations Int64 12 10 = (8, 14, 6, -13, 48, 6) /\
  14 + 8 = 12 + 10.
Proof.
  destruct (BitwiseOperations_identities Int64 12 10)
    as (r1 & r2 & r3 & r4 & r5 & r6 & Heq & _ & _ & _ & _ & _ & _ & Hsum & _);
    [range_closed | range_closed |].
  injection Heq as <- <- <- <- <- <-. split; [reflexivity | exact Hsum].
Defined.

Lemma BitwiseOperations_shifts_witness :
  exists rightShift,
    snd (Operators.BitwiseOperations Int64 (-3) 0) = rightShift /\
    rightShift = -2 /\ quo Int64 (-3) 2 = Ok (-1).
Proof.
  destruct (BitwiseOperations_shifts Int64 (-3) 0)
    as (r1 & r2 & r3 & r4 & r5 & r6 & Heq & _ & Hhalf & _ & Hodd);
    [range_closed|].
  injection Heq as <- <- <- <- <- <-.
  eexists. split; [reflexivity|]. split; [reflexivity|].
  apply Hodd; [lia | reflexivity].
Defined.

Lemma AllOperations_recombine_witness :
  exists quotient remainder,
    Operators.AllOperations Int64 (-9223372036854775808) (-1)
    = Ok (9223372036854775807, -9223372036854775807, -9223372036854775808,
          quotient, remainder) /\
    add Int64 (mul Int64 quotient (-1)) remainder = -9223372036854775808.
Proof.
  destruct (AllOperations_recombine Int64 (-9223372036854775808) (-1))
    as (s & d & p & q & r & Heq & Hrec & _);
    [range_closed | range_closed | discriminate |].
  exists q, r. split; [|exact Hrec].
  rewrite Heq. vm_compute in Heq. injection Heq as <- <- <- <- <-. reflexivity.
Defined.

(* ===================================================================== *)
(** * Package [basics]: conditionals *)
(* ===================================================================== *)

Section ConditionalFacts.
Import Conditionals.
Context (sz : IntSize).

(** X5. [CheckNumber] compares [num * 2] as computed in [int].  For
    [-2^(w-2) <= num < 2^(w-2)] (a quarter of the range on either side of
    zero) the answer is the mathematical one: greater, equal or less
    according to [num] against 50.  For every larger [num] the doubling
    wraps to a negative number and the answer is "less than 100"; for
    smaller [num] it wraps to a non-negative one, and the answer is "greater
    than 100" above [MinInt + 50], "equals 100" at [MinInt + 50] and "less
    than 100" below. *)
Theorem CheckNumber_spec (num : Z) (Hnum : in_range sz num) :
  (- (modulus sz / 4) <= num < modulus sz / 4 ->
     (50 < num -> CheckNumber sz num = "Double of number is greater than 100") /\
     (num = 50 -> CheckNumber sz num = "Double of number equals 100") /\
     (num < 50 -> CheckNumber sz num = "Double of number is less than 100")) /\
  (modulus sz / 4 <= num ->
     CheckNumber sz num = "Double of number is less than 100") /\
  (num < - (modulus sz / 4) ->
     (MinInt sz + 50 < num ->
        CheckNumber sz num = "Double of number is greater than 100") /\
     (num = MinInt sz + 50 ->
        CheckNumber sz num = "Double of number equals 100") /\
     (num < MinInt sz + 50 ->
        CheckNumber sz num = "Double of number is less than 100")).
Proof.
  assert (modulus sz = 4 * (modulus sz / 4) /\ half_modulus sz = 2 * (modulus sz / 4)
          /\ 100 < modulus sz / 4) as (Hm & Hh & Hq)
    by (destruct sz; repeat split; reflexivity).
  set (q := modulus sz / 4) in *.
  unfold CheckNumber, mul. unfold in_range, MinInt, MaxInt in *.
  assert (- q <= num < q -> wrap sz (num * 2) = num * 2) as Hmid.
  { intros Hr. apply wrap_exact. unfold in_range, MinInt, MaxInt. lia. }
  assert (q <= num -> wrap sz (num * 2) = num * 2 - modulus sz) as Hhigh.
  { intros Hr. rewrite <- (wrap_shift sz (num * 2) (-1)).
    replace (num * 2 + -1 * modulus sz) with (num * 2 - modulus sz) by lia.
    apply wrap_exact. unfold in_range, MinInt, MaxInt. lia. }
  assert (num < - q -> wrap sz (num * 2) = num * 2 + modulus sz) as Hlow.
  { intros Hr. rewrite <- (wrap_shift sz (num * 2) 1).
    replace (num * 2 + 1 * modulus sz) with (num * 2 + modulus sz) by lia.
    apply wrap_exact. unfold in_range, MinInt, MaxInt. lia. }
  split; [|split].
  - intros Hr. rewrite (Hmid Hr). repeat split; intros Hc.
    + destruct (Z.gtb_spec (num * 2) 100); [reflexivity | lia].
    + subst num. reflexivity.
    + destruct (Z.gtb_spec (num * 2) 100); [lia|].
      destruct (Z.eqb_spec (num * 2) 100); [lia | reflexivity].
  - intros Hr. rewrite (Hhigh Hr).
    destruct (Z.gtb_spec (num * 2 - modulus sz) 100); [lia|].
    destruct (Z.eqb_spec (num * 2 - modulus sz) 100); [lia | reflexivity].
  - intros Hr. rewrite (Hlow Hr). repeat split; intros Hc.
    + destruct (Z.gtb_spec (num * 2 + modulus sz) 100); [reflexivity | lia].
    + destruct (Z.gtb_spec (num * 2 + modulus sz) 100); [lia|].
      destruct (Z.eqb_spec (num * 2 + modulus sz) 100); [reflexivity | lia].
    + destruct (Z.gtb_spec (num * 2 + modulus sz) 100); [lia|].
      destruct (Z.eqb_spec (num * 2 + modulus sz) 100); [lia | reflexivity].
Qed.

(** X6. [ProcessValue] answers "Unexpected value" exactly for the negative
    values that are not multiples of 3, because [value % 3] is then -1 or
    -2; for [value >= 0] the answer names [value mod 3], and every multiple
    of 3 is "Divisible by 3". *)
Theorem ProcessValue_spec (value : Z) :
  (ProcessValue value = "Unexpected value" <->
     value < 0 /\ value mod 3 <> 0) /\
  (ProcessValue value = "Divisible by 3" <-> value mod 3 = 0) /\
  (ProcessValue value = "Remainder 1 when divided by 3" <->
     0 <= value /\ value mod 3 = 1) /\
  (ProcessValue value = "Remainder 2 when divided by 3" <->
     0 <= value /\ value mod 3 = 2).
Proof.
  unfold ProcessValue.
  destruct (Z.eqb_spec (Z.rem value 3) 0) as [H0|H0];
    [|destruct (Z.eqb_spec (Z.rem value 3) 1) as [H1|H1];
      [|destruct (Z.eqb_spec (Z.rem value 3) 2) as [H2|H2]]];
    repeat split; intros; try discriminate; try reflexivity;
    try (exfalso; Z.to_euclidean_division_equations; lia);
    Z.to_euclidean_division_equations; lia.
Qed.

(** X7. [CheckConditions] answers "Not both zeros" exactly when one number
    is zero and the other positive, "Both are zeros" exactly at (0, 0),
    "At least one number is negative" exactly when one is, and "Both numbers
    are positive" exactly when both are; the answer does not depend on the
    order of the arguments. *)
Theorem CheckConditions_spec (x y : Z) :
  (CheckConditions x y = "Both numbers are positive" <-> 0 < x /\ 0 < y) /\
  (CheckConditions x y = "At least one number is negative" <-> x < 0 \/ y < 0) /\
  (CheckConditions x y = "Not both zeros" <->
     (x = 0 /\ 0 < y) \/ (0 < x /\ y = 0)) /\
  (CheckConditions x y = "Both are zeros" <-> x = 0 /\ y = 0) /\
  CheckConditions x y = CheckConditions y x.
Proof.
  unfold CheckConditions.
  destruct (Z.gtb_spec x 0), (Z.gtb_spec y 0), (Z.ltb_spec x 0), (Z.ltb_spec y 0),
    (Z.eqb_spec x 0), (Z.eqb_spec y 0); cbn;
    repeat split; intros; try discriminate; try reflexivity; try lia.
Qed.

(** X8. [ValidateInput] checks the length of the user name first: a name
    shorter than 3 or longer than 20 bytes is refused whatever the age.  A
    registration completes exactly when the name has 3 to 20 bytes and the
    age is 13 to 120, with full access exactly from 18 on. *)
Theorem ValidateInput_spec (username : string) (age : Z) :
  ((String.length username < 3)%nat ->
     ValidateInput username age = "Username too short") /\
  ((20 < String.length username)%nat ->
     ValidateInput username age = "Username too long") /\
  (ValidateInput username age = "Registration complete - Full access granted" <->
     (3 <= String.length username <= 20)%nat /\ 18 <= age <= 120) /\
  (ValidateInput username age
     = "Registration complete - Limited access (under 18)" <->
     (3 <= String.length username <= 20)%nat /\ 13 <= age < 18).
Proof.
  unfold ValidateInput.
  destruct (Nat.ltb_spec (String.length username) 3),
    (Nat.ltb_spec 20 (String.length username)),
    (Z.ltb_spec age 13), (Z.gtb_spec age 120), (Z.geb_spec age 18);
    repeat split; intros; try discriminate; try reflexivity; try lia.
Qed.

End ConditionalFacts.

Lemma CheckNumber_spec_witness :
  Conditionals.CheckNumber Int64 9223372036854775807
  = "Double of number is less than 100".
Proof.
  destruct (CheckNumber_spec Int64 9223372036854775807) as (_ & Hhigh & _);
    [range_closed|].
  apply Hhigh. vm_compute. discriminate.
Defined.

(* ===================================================================== *)
(** * Package [functions]: functions as values, variadic parameters, defer *)
(* ===================================================================== *)

(** The exact sum of a list of integers. *)
Definition total (values : list Z) : Z := foldr Z.add 0 values.

Section FunctionValues.
Import Functions.
Context (sz : IntSize).




(** X10. The function returned by [FunctionReturningFunction(multiplier)]
    maps [x] to Go's [x * multiplier].  Composing the functions for two
    multipliers is the function for their product, overflow included; the
    one for 0 is constantly 0, the one for 1 returns every [int] unchanged,
    and the one for -1 negates every [int] but [MinInt], which it returns
    unchanged. *)
Theorem FunctionReturningFunction_spec (m1 m2 x : Z) :
  FunctionReturningFunction sz m1 x = mul sz x m1 /\
  FunctionReturningFunction sz m2 (FunctionReturningFunction sz m1 x)
  = FunctionReturningFunction sz (mul sz m1 m2) x /\
  FunctionReturningFunction sz 0 x = 0 /\
  (in_range sz x -> FunctionReturningFunction sz 1 x = x) /\
  (in_range sz x -> x <> MinInt sz -> FunctionReturningFunction sz (-1) x = - x) /\
  FunctionReturningFunction sz (-1) (MinInt sz) = MinInt sz.
Proof.
  unfold FunctionReturningFunction, mul.
  split; [reflexivity|]. split.
  { rewrite wrap_mul_l, wrap_mul_r. f_equal. lia. }
  split; [rewrite Z.mul_0_r; destruct sz; reflexivity|].
  split; [intros Hx; rewrite Z.mul_1_r; apply wrap_exact, Hx|].
  split; [|destruct sz; reflexivity].
  intros Hx Hmin. replace (x * -1) with (- x) by lia.
  apply wrap_exact. unfold in_range, MinInt, MaxInt in *. lia.
Qed.

Lemma sum_values_from (values : list Z) : forall start,
  foldl (fun sum v => add sz sum v) (wrap sz start) values
  = wrap sz (start + total values).
Proof.
  induction values as [|v values IH]; intros start; cbn [foldl total foldr].
  - f_equal. lia.
  - unfold add at 2. rewrite wrap_add_l, IH. f_equal.
    change (foldr Z.add 0 values) with (total values). lia.
Qed.

Lemma sum_values_total values : sum_values sz values = wrap sz (total values).
Proof.
  pose proof (sum_values_from values 0) as Hsum.
  replace (wrap sz 0) with 0 in Hsum by (destruct sz; reflexivity).
  exact Hsum.
Qed.

Lemma total_permutation values values' :
  values ≡ₚ values' -> total values = total values'.
Proof.
  unfold total.
  induction 1 as [| x l l' _ IH | x y l | l l' l'' _ IH1 _ IH2];
    cbn [foldr] in *; lia.
Qed.

(** X11. [VariadicFunction] prints the prefix and then one line with the
    arguments and their sum.  The sum accumulated in [int] is the exact sum
    of the arguments reduced into [int], so it does not depend on the order
    of the arguments even when an intermediate sum overflows; without
    arguments the line reads "Sum of [] = 0". *)
Theorem VariadicFunction_spec (prefix : string) (values : list Z)
    (stdout : list string) :
  VariadicFunction sz prefix values stdout
  = stdout ++ [prefix +:+ ": ";
               "Sum of " +:+ Sprint_ints values +:+ " = "
                 +:+ pretty (wrap sz (total values)) +:+ nl] /\
  (forall values', values ≡ₚ values' ->
     sum_values sz values' = sum_values sz values) /\
  VariadicFunction sz prefix [] stdout
  = stdout ++ [prefix +:+ ": "; "Sum of [] = 0" +:+ nl].
Proof.
  unfold VariadicFunction. rewrite sum_values_total, <- app_assoc.
  split; [reflexivity|]. split.
  - intros values' Hperm. rewrite !sum_values_total.
    f_equal. symmetry. apply total_permutation, Hperm.
  - rewrite <- app_assoc. reflexivity.
Qed.

End FunctionValues.

Section Defer.
Import Functions.

Lemma prefix_append (p s : string) :
  String.prefix p s = true <-> exists t, s = p +:+ t.
Proof.
  revert s. induction p as [|a p IH]; intros s.
  - destruct s; (split; [intros _; eexists; reflexivity | reflexivity]).
  - destruct s as [|b s]; cbn [String.prefix].
    { split; [discriminate | intros [t Ht]; discriminate]. }
    destruct (ascii_dec a b) as [->|Hne].
    + rewrite IH. split; intros [t Ht]; exists t; [rewrite Ht; reflexivity|].
      injection Ht as ->. reflexivity.
    + split; [discriminate|]. intros [t Ht]. injection Ht as ? ?. congruence.
Qed.

(** [Contains] decides whether [substr] occurs in [s]. *)
Lemma Contains_occurs (s substr : string) :
  Contains s substr = true <-> exists before after, s = before +:+ substr +:+ after.
Proof.
  induction s as [|c s IH]; cbn [Contains].
  - destruct (String.prefix substr "") eqn:Hp.
    + split; [intros _|reflexivity].
      apply prefix_append in Hp as [t Ht]. exists "", t. exact Ht.
    + split; [discriminate|]. intros (before & after & Heq).
      destruct before; [|discriminate].
      assert (String.prefix substr "" = true) as Hp'
        by (apply prefix_append; exists after; exact Heq).
      congruence.
  - destruct (String.prefix substr (String c s)) eqn:Hp.
    + split; [intros _|reflexivity].
      apply prefix_append in Hp as [t Ht]. exists "", t. exact Ht.
    + rewrite IH. split.
      * intros (before & after & ->). exists (String c before), after. reflexivity.
      * intros (before & after & Heq). destruct before as [|c' before].
        { assert (String.prefix substr (String c s) = true) as Hp'
            by (apply prefix_append; exists after; exact Heq).
          congruence. }
        injection Heq as _ ->. exists before, after. reflexivity.
Qed.

(** X12. [DeferredExecution] returns an error, with the text "simulated
    error in file processing", exactly when "error" occurs in the file name.
    With or without the error, the last three lines it prints are the
    deferred ones in the reverse of the order they were deferred in (1, 2,
    3); "File processed successfully" is printed exactly when there is no
    error. *)
Theorem DeferredExecution_spec (filename : string) (stdout : list string) :
  ((DeferredExecution filename stdout).1 <> None <->
     exists before after, filename = before +:+ "error" +:+ after) /\
  ((DeferredExecution filename stdout).1 <> None ->
     (DeferredExecution filename stdout).1
     = Some "simulated error in file processing") /\
  exists body,
    (DeferredExecution filename stdout).2
    = stdout ++ ["Opening file: " +:+ filename +:+ nl; "Processing file..." +:+ nl]
        ++ body
        ++ ["1. First deferred call" +:+ nl; "2. Closing file" +:+ nl;
            "3. Final cleanup" +:+ nl] /\
    (body = ["File processed successfully" +:+ nl] <->
       (DeferredExecution filename stdout).1 = None) /\
    (body = [] <-> (DeferredExecution filename stdout).1 <> None).
Proof.
  unfold DeferredExecution. rewrite <- Contains_occurs.
  destruct (Contains filename "error"); cbn [fst snd run_deferred foldl].
  - split; [split; [reflexivity | discriminate]|]. split; [reflexivity|].
    exists []. split; [|split; split; intros; try reflexivity; discriminate].
    rewrite <- !app_assoc. reflexivity.
  - split; [split; [intros H; contradiction | discriminate]|].
    split; [intros H; contradiction|].
    exists ["File processed successfully" +:+ nl].
    split; [|split; split; intros; try reflexivity; try discriminate; try contradiction].
    rewrite <- !app_assoc. reflexivity.
Qed.

Example TestDeferredExecution :
  (DeferredExecution "test.txt" []).1 = None /\
  (DeferredExecution "data.txt" []).1 = None /\
  (DeferredExecution "error.txt" []).1
  = Some "simulated error in file processing" /\
  (DeferredExecution "error_log.txt" []).1
  = Some "simulated error in file processing".
Proof. repeat split. Qed.

End Defer.

(* ===================================================================== *)
(** * Package [functions]: how the arithmetic helpers compose *)
(* ===================================================================== *)

(** The first argument whose factorial is a multiple of the modulus. *)
Definition factorial_vanishes_from (sz : IntSize) : Z :=
  match sz with Int32 => 34 | Int64 => 66 end.

Section ArithmeticHelpers.
Import Functions.
Context (sz : IntSize).

(** X13. For every [int] [a] and every [b], subtracting [b] from
    [FunctionWithReturn(a, b)] with [CalculateWithError] gives [a] back with
    a nil error, also when the sum overflowed; [FunctionWithReturn] is the
    "add" case of [CalculateWithError] and does not depend on the order of
    its arguments. *)
Theorem add_then_subtract (a b : Z) (Ha : in_range sz a) :
  CalculateWithError sz (FunctionWithReturn sz a b) b "subtract" = Ok (a, None) /\
  CalculateWithError sz a b "add" = Ok (FunctionWithReturn sz a b, None) /\
  FunctionWithReturn sz a b = FunctionWithReturn sz b a.
Proof.
  unfold CalculateWithError, FunctionWithReturn. cbn [String.eqb Ascii.eqb].
  split; [|split; [reflexivity | unfold add; f_equal; lia]].
  cbn. unfold mret, Res_ret. do 2 f_equal.
  unfold sub, add. rewrite wrap_sub_l.
  replace (a + b - b) with a by lia. apply wrap_exact, Ha.
Qed.

(** X14. From 34 on (32-bit [int]) or 66 on (64-bit [int])
    [RecursiveFactorial] returns 0 for every [int]: the factorial is then a
    multiple of 2^32 (2^64).  One step earlier the result is [MinInt]. *)
Theorem RecursiveFactorial_vanishes (n : Z) (Hn : in_range sz n) :
  (factorial_vanishes_from sz <= n -> RecursiveFactorial sz n = 0) /\
  RecursiveFactorial sz (factorial_vanishes_from sz - 1) = MinInt sz.
Proof.
  split; [|destruct sz; vm_compute; reflexivity].
  intros Hfrom. remember (Z.to_nat (n - factorial_vanishes_from sz)) as k eqn:Hk.
  revert n Hn Hfrom Hk. induction k as [|k IH]; intros n Hn Hfrom Hk.
  - assert (n = factorial_vanishes_from sz) as -> by lia.
    destruct sz; vm_compute; reflexivity.
  - assert (1 < n) as H1 by (destruct sz; cbn in Hfrom; lia).
    rewrite RecursiveFactorial_rec, recursive_argument_exact by assumption.
    rewrite IH; [unfold mul; rewrite Z.mul_0_r; destruct sz; reflexivity | | lia | lia].
    pose proof (half_modulus_pos sz). unfold in_range, MinInt, MaxInt in *. lia.
Qed.

End ArithmeticHelpers.

Lemma add_then_subtract_witness :
  Functions.CalculateWithError Int64
    (Functions.FunctionWithReturn Int64 9223372036854775807 1) 1 "subtract"
  = Ok (9223372036854775807, None) /\
  Functions.FunctionWithReturn Int64 9223372036854775807 1 = -9223372036854775808.
Proof.
  destruct (add_then_subtract Int64 9223372036854775807 1) as (Hsub & _);
    [range_closed|].
  split; [exact Hsub | reflexivity].
Defined.

Lemma RecursiveFactorial_vanishes_witness :
  Functions.RecursiveFactorial Int64 100 = 0.
Proof.
  destruct (RecursiveFactorial_vanishes Int64 100) as (Hzero & _);
    [range_closed|].
  apply Hzero. discriminate.
Defined.

(* ===================================================================== *)
(** * Package [collections]: the closures of [MapPatterns] *)
(* ===================================================================== *)

(** The Fibonacci numbers, [F 0 = 0], [F 1 = 1], [F (k+2) = F (k+1) + F k]. *)
Fixpoint fibonacci_pair (k : nat) : Z * Z :=
  match k with
  | O => (0, 1)
  | S k => let '(a, b) := fibonacci_pair k in (b, a + b)
  end.

Definition fibonacci (n : Z) : Z := (fibonacci_pair (Z.to_nat n)).1.

(** Every entry of the cache is the Fibonacci number of its key, as an
    [int]. *)
Definition cache_correct (sz : IntSize) (cache : gmap Z Z) : Prop :=
  forall k v, cache !! k = Some v -> v = wrap sz (fibonacci k).

(** The number of "Calculated" lines among the lines printed. *)
Definition calculations (lines : list string) : nat :=
  length (filter (fun line => String.prefix "    Calculated fib(" line = true) lines).

Section Memoization.
Import Collections.
Context (sz : IntSize).

Lemma fibonacci_step n : 2 <= n -> fibonacci n = fibonacci (n - 1) + fibonacci (n - 2).
Proof.
  intros Hn. unfold fibonacci.
  replace (Z.to_nat n) with (S (S (Z.to_nat (n - 2)))) by lia.
  replace (Z.to_nat (n - 1)) with (S (Z.to_nat (n - 2))) by lia.
  cbn [fibonacci_pair]. destruct (fibonacci_pair (Z.to_nat (n - 2))) as [a b].
  cbn. lia.
Qed.

Lemma calculations_app l1 l2 :
  calculations (l1 ++ l2) = (calculations l1 + calculations l2)%nat.
Proof. unfold calculations. rewrite filter_app, length_app. reflexivity. Qed.

Lemma calculations_hit (n val : Z) :
  calculations ["    Cache hit for fib(" +:+ pretty n +:+ ") = "
                  +:+ pretty val +:+ nl] = 0%nat.
Proof. unfold calculations. rewrite filter_cons_False by (cbn; discriminate). reflexivity. Qed.

Lemma calculations_calculated (n result : Z) :
  calculations ["    Calculated fib(" +:+ pretty n +:+ ") = "
                  +:+ pretty result +:+ nl] = 1%nat.
Proof.
  unfold calculations. rewrite filter_cons_True; [reflexivity|].
  apply prefix_append. eexists. reflexivity.
Qed.

Lemma fib_run fuel : forall n cache out,
  in_range sz n -> cache_correct sz cache ->
  (1 <= fuel)%nat -> (Z.to_nat n <= fuel)%nat ->
  exists v cache' new,
    fib sz fuel n (cache, out) = Some (v, (cache', out ++ new)) /\
    (n <= 1 -> v = n /\ cache' = cache /\ new = []) /\
    (0 <= n -> v = wrap sz (fibonacci n)) /\
    cache_correct sz cache' /\
    cache ⊆ cache' /\
    (forall k, is_Some (cache' !! k) -> is_Some (cache !! k) \/ 2 <= k <= n) /\
    (2 <= n -> cache' !! n = Some v) /\
    size cache' = (size cache + calculations new)%nat.
Proof.
  induction fuel as [|fuel IH]; intros n cache out Hn Hcache H1 Hfuel; [lia|].
  cbn [fib fst snd]. destruct (Z.leb_spec n 1) as [Hle|Hgt].
  - exists n, cache, []. rewrite app_nil_r.
    repeat split; auto; try lia.
    intros H0. assert (n = 0 \/ n = 1) as [-> | ->] by lia;
      destruct sz; reflexivity.
  - destruct (cache !! n) as [val|] eqn:Hlookup.
    + eexists val, cache, [_]. split; [reflexivity|].
      rewrite calculations_hit.
      split; [lia|]. split; [intros _; eapply Hcache, Hlookup|].
      repeat split; auto; try lia.
    + pose proof (half_modulus_pos sz) as Hh.
      assert (GoInt.sub sz n 1 = n - 1 /\ GoInt.sub sz n 2 = n - 2) as [-> ->].
      { split; apply sub_exact; unfold in_range, MinInt, MaxInt in *; lia. }
      assert (in_range sz (n - 1) /\ in_range sz (n - 2)) as [Hn1 Hn2]
        by (unfold in_range, MinInt, MaxInt in *; lia).
      destruct (IH (n - 1) cache out Hn1 Hcache)
        as (v1 & c1 & new1 & -> & _ & Hv1 & Hc1 & Hsub1 & Hkeys1 & _ & Hsize1);
        [lia | lia |].
      cbn [mbind option_bind].
      destruct (IH (n - 2) c1 (out ++ new1) Hn2 Hc1)
        as (v2 & c2 & new2 & -> & _ & Hv2 & Hc2 & Hsub2 & Hkeys2 & _ & Hsize2);
        [lia | lia |].
      cbn [mbind option_bind fst snd].
      assert (c2 !! n = None) as Hfresh.
      { destruct (c2 !! n) eqn:Hc2n; [|reflexivity]. exfalso.
        destruct (Hkeys2 n) as [Hin1 | ?]; [eauto | | lia].
        destruct (Hkeys1 n Hin1) as [[? Hin] | ?]; [congruence | lia]. }
      assert (GoInt.add sz v1 v2 = wrap sz (fibonacci n)) as Hresult.
      { rewrite Hv1, Hv2 by lia. unfold GoInt.add.
        rewrite wrap_add_l, wrap_add_r, <- fibonacci_step by lia. reflexivity. }
      eexists _, _, (new1 ++ new2 ++ [_]). split.
      { rewrite !app_assoc. reflexivity. }
      split; [lia|]. split; [intros _; exact Hresult|].
      split.
      { intros k v. destruct (decide (k = n)) as [->|Hne].
        - rewrite lookup_insert_eq. intros [= <-]. exact Hresult.
        - rewrite lookup_insert_ne by congruence. apply Hc2. }
      split.
      { etransitivity; [exact Hsub1|]. etransitivity; [exact Hsub2|].
        apply insert_subseteq, Hfresh. }
      split.
      { intros k. destruct (decide (k = n)) as [->|Hne]; [right; lia|].
        rewrite lookup_insert_ne by congruence. intros Hk.
        destruct (Hkeys2 k Hk) as [Hk1 | ?]; [|right; lia].
        destruct (Hkeys1 k Hk1) as [? | ?]; [left; assumption | right; lia]. }
      split; [intros _; apply lookup_insert_eq|].
      rewrite map_size_insert_None by exact Hfresh.
      rewrite !calculations_app, calculations_calculated. lia.
Qed.

(** X15. Started on a cache whose entries are correct, with enough stack,
    [fib(n)] returns for every [int] [n]: the n-th Fibonacci number reduced
    into [int] for [n >= 0], and [n] itself for [n <= 1], negative [n]
    included.  It only adds entries to the cache, and every entry of the
    cache it leaves is correct again. *)
Theorem fib_correct (fuel : nat) (n : Z) (cache : gmap Z Z) (out : list string)
    (Hn : in_range sz n) (Hcache : cache_correct sz cache)
    (H1 : (1 <= fuel)%nat) (Hfuel : (Z.to_nat n <= fuel)%nat) :
  exists v cache' out',
    fib sz fuel n (cache, out) = Some (v, (cache', out')) /\
    (0 <= n -> v = wrap sz (fibonacci n)) /\
    (n <= 1 -> v = n /\ cache' = cache /\ out' = out) /\
    cache ⊆ cache' /\
    cache_correct sz cache'.
Proof.
  destruct (fib_run fuel n cache out Hn Hcache H1 Hfuel)
    as (v & cache' & new & Hrun & Hsmall & Hv & Hc & Hsub & _).
  exists v, cache', (out ++ new). split; [exact Hrun|].
  split; [exact Hv|]. split; [|auto].
  intros Hle. destruct (Hsmall Hle) as (-> & -> & ->).
  rewrite app_nil_r. auto.
Qed.

Lemma new_keys_bound (n : Z) (cache cache' : gmap Z Z) :
  (forall k, is_Some (cache' !! k) -> is_Some (cache !! k) \/ 2 <= k <= n) ->
  (size cache' <= size cache + Z.to_nat (n - 1))%nat.
Proof.
  intros Hkeys.
  assert (dom cache' ⊆ dom cache ∪ list_to_set (seqZ 2 (n - 1))) as Hdom.
  { intros k Hk. apply elem_of_dom in Hk.
    destruct (Hkeys k Hk) as [Hold | Hnew]; apply elem_of_union.
    - left. apply elem_of_dom, Hold.
    - right. apply elem_of_list_to_set, elem_of_seqZ. lia. }
  apply subseteq_size in Hdom. rewrite size_union_alt, !size_dom in Hdom.
  assert (list_to_set (seqZ 2 (n - 1)) ∖ dom cache
          ⊆ (list_to_set (seqZ 2 (n - 1)) : gset Z)) as Hdiff.
  { intros k Hk. apply elem_of_difference in Hk as [Hk _]. exact Hk. }
  apply subseteq_size in Hdiff.
  rewrite (size_list_to_set (seqZ 2 (n - 1))) in Hdiff by apply NoDup_seqZ.
  rewrite length_seqZ in Hdiff. lia.
Qed.

(** X16. Each Fibonacci number is calculated at most once: a call [fib(n)]
    prints as many "Calculated" lines as it adds entries to the cache, at
    most [n - 1] of them, on every cache of correct entries.  After the call
    the value for [n >= 2] is cached, and calling [fib(n)] again returns it
    as a cache hit, without a calculation and without changing the cache. *)
Theorem fib_memoizes (fuel : nat) (n : Z) (cache : gmap Z Z) (out : list string)
    (Hn : in_range sz n) (Hcache : cache_correct sz cache)
    (H1 : (1 <= fuel)%nat) (Hfuel : (Z.to_nat n <= fuel)%nat) :
  exists v cache' new,
    fib sz fuel n (cache, out) = Some (v, (cache', out ++ new)) /\
    size cache' = (size cache + calculations new)%nat /\
    (calculations new <= Z.to_nat (n - 1))%nat /\
    (2 <= n ->
       cache' !! n = Some v /\
       forall again out',
         fib sz (S again) n (cache', out')
         = Some (v, (cache', out' ++ ["    Cache hit for fib(" +:+ pretty n
                                        +:+ ") = " +:+ pretty v +:+ nl]))).
Proof.
  destruct (fib_run fuel n cache out Hn Hcache H1 Hfuel)
    as (v & cache' & new & Hrun & _ & _ & _ & _ & Hkeys & Hcached & Hsize).
  exists v, cache', new. split; [exact Hrun|]. split; [exact Hsize|].
  split; [pose proof (new_keys_bound n cache cache' Hkeys); lia|].
  intros H2. split; [auto|]. intros again out'.
  cbn [fib fst snd]. destruct (Z.leb_spec n 1); [lia|].
  rewrite (Hcached H2). reflexivity.
Qed.

(** X17. [getConfig] returns the configured value for "host" and "port",
    whatever the default, and the default for every other key. *)
Theorem getConfig_spec (key defaultValue : string) :
  (key = "host" -> getConfig key defaultValue = "localhost") /\
  (key = "port" -> getConfig key defaultValue = "8080") /\
  (key <> "host" -> key <> "port" -> getConfig key defaultValue = defaultValue).
Proof.
  unfold getConfig, config. repeat split.
  - intros ->. reflexivity.
  - intros ->. reflexivity.
  - intros Hhost Hport. rewrite !lookup_insert_ne, lookup_empty by congruence.
    reflexivity.
Qed.

(** X18. [hasPermission] is true exactly for alice reading or writing and
    for bob reading; it is false for every unknown user, every unknown
    action and for the permissions stored as false. *)
Theorem hasPermission_spec (user action : string) :
  hasPermission user action = true <->
  (user = "alice" /\ (action = "read" \/ action = "write")) \/
  (user = "bob" /\ action = "read").
Proof.
  unfold hasPermission, userPermissions.
  destruct (decide (user = "bob")) as [->|Hbob].
  { rewrite lookup_insert_eq.
    destruct (decide (action = "write")) as [->|Hw]; [cbn; intuition (discriminate || congruence)|].
    rewrite lookup_insert_ne by congruence.
    destruct (decide (action = "read")) as [->|Hr]; [cbn; intuition (discriminate || congruence)|].
    rewrite lookup_insert_ne, lookup_empty by congruence. cbn. intuition (discriminate || congruence). }
  rewrite lookup_insert_ne by congruence.
  destruct (decide (user = "alice")) as [->|Halice].
  { rewrite lookup_insert_eq.
    destruct (decide (action = "delete")) as [->|Hd]; [cbn; intuition (discriminate || congruence)|].
    rewrite lookup_insert_ne by congruence.
    destruct (decide (action = "write")) as [->|Hw]; [cbn; intuition (discriminate || congruence)|].
    rewrite lookup_insert_ne by congruence.
    destruct (decide (action = "read")) as [->|Hr]; [cbn; intuition (discriminate || congruence)|].
    rewrite lookup_insert_ne, lookup_empty by congruence. cbn. intuition (discriminate || congruence). }
  rewrite lookup_insert_ne, lookup_empty by congruence. intuition (discriminate || congruence).
Qed.

End Memoization.

(** [fib(6)] on the empty cache, as [MapPatterns] calls it: five
    calculations, and the value 8. *)
Lemma fib_correct_witness :
  exists cache' out',
    Collections.fib Int64 6 6 (∅, []) = Some (8, (cache', out')) /\
    cache_correct Int64 cache'.
Proof.
  destruct (fib_correct Int64 6 6 ∅ [])
    as (v & cache' & out' & Hrun & Hv & _ & _ & Hc);
    [range_closed | intros k v Hk; rewrite lookup_empty in Hk; discriminate
    | lia | lia |].
  exists cache', out'. rewrite Hrun, Hv by lia. split; [reflexivity | exact Hc].
Defined.

Lemma fib_memoizes_witness :
  exists cache' new,
    Collections.fib Int64 6 6 (∅, []) = Some (8, (cache', new)) /\
    (calculations new <= 5)%nat /\ cache' !! 6 = Some 8.
Proof.
  destruct (fib_memoizes Int64 6 6 ∅ [])
    as (v & cache' & new & Hrun & _ & Hcalc & Hhit);
    [range_closed | intros k v Hk; rewrite lookup_empty in Hk; discriminate
    | lia | lia |].
  assert (v = 8) as -> by (vm_compute in Hrun; congruence).
  exists cache', new. split; [exact Hrun|]. split; [exact Hcalc|].
  apply Hhit. lia.
Defined.

(* ===================================================================== *)
(** * The demo runner [cmd/04-collections]: the cache *)
(* ===================================================================== *)

(** What [addToCache] keeps true: the order lists every cached key once,
    and at most [maxSize] keys are cached. *)
Definition cache_invariant (st : CollectionsDemo.cache_state) : Prop :=
  NoDup (CollectionsDemo.cacheOrder st) /\
  (forall k, is_Some (CollectionsDemo.cache st !! k)
             <-> k ∈ CollectionsDemo.cacheOrder st) /\
  (length (CollectionsDemo.cacheOrder st) <= CollectionsDemo.maxSize)%nat.

Section Cache.
Import CollectionsDemo.

Lemma newOrder_filter (key : string) (order : list string) : forall acc,
  foldl (fun newOrder k => if decide (k <> key) then newOrder ++ [k] else newOrder)
        acc order
  = acc ++ filter (fun k => k <> key) order.
Proof.
  induction order as [|k order IH]; intros acc; cbn [foldl].
  - rewrite app_nil_r. reflexivity.
  - rewrite IH. destruct (decide (k <> key)) as [Hne|Heq].
    + rewrite filter_cons_True by exact Hne. rewrite <- app_assoc. reflexivity.
    + rewrite filter_cons_False by exact Heq. reflexivity.
Qed.

(** The state after [addToCache], with the order before eviction spelled
    out. *)
Lemma addToCache_unfold key value st :
  let order := filter (fun k => k <> key) (cacheOrder st) ++ [key] in
  (cache (addToCache key value st), cacheOrder (addToCache key value st))
  = if (maxSize <? length order)%nat then
      match order with
      | oldest :: rest => (delete oldest (<[key := value]> (cache st)), rest)
      | [] => (<[key := value]> (cache st), order)
      end
    else (<[key := value]> (cache st), order).
Proof.
  cbn zeta. unfold addToCache. rewrite newOrder_filter. cbn [app].
  destruct (maxSize <? _)%nat; [|reflexivity].
  destruct (filter _ _ ++ [key]); reflexivity.
Qed.

Lemma filter_absent (key : string) (order : list string) :
  key ∉ order -> filter (fun k => k <> key) order = order.
Proof.
  induction order as [|k order IH]; intros Hnot; [reflexivity|].
  apply not_elem_of_cons in Hnot as [Hne Hnot].
  rewrite filter_cons_True by congruence. f_equal. apply IH, Hnot.
Qed.

Lemma filter_length_present (key : string) (order : list string) :
  NoDup order -> key ∈ order ->
  S (length (filter (fun k => k <> key) order)) = length order.
Proof.
  induction 1 as [|k order Hk Hnd IH]; intros Hin; [inversion Hin|].
  destruct (decide (k = key)) as [->|Hne].
  - rewrite filter_cons_False by tauto. cbn [length]. f_equal.
    rewrite filter_absent by exact Hk. reflexivity.
  - rewrite filter_cons_True by exact Hne. cbn [length]. f_equal.
    apply IH. apply elem_of_cons in Hin as [?|?]; [congruence | assumption].
Qed.

(** The two ways a call can go.  Without eviction (the key was cached, or
    fewer than [maxSize] keys were): the entry is written and the key moves
    to the end of the order.  With eviction (a new key on a full cache): in
    addition the first key of the order leaves both the order and the
    cache. *)
Lemma addToCache_cases key value st :
  cache_invariant st ->
  (key ∈ cacheOrder st \/ (length (cacheOrder st) < maxSize)%nat ->
     cache (addToCache key value st) = <[key := value]> (cache st) /\
     cacheOrder (addToCache key value st)
     = filter (fun k => k <> key) (cacheOrder st) ++ [key]) /\
  (key ∉ cacheOrder st -> length (cacheOrder st) = maxSize ->
     exists oldest rest,
       cacheOrder st = oldest :: rest /\
       cache (addToCache key value st)
       = delete oldest (<[key := value]> (cache st)) /\
       cacheOrder (addToCache key value st) = rest ++ [key]).
Proof.
  intros (Hnd & Hdom & Hlen).
  pose proof (addToCache_unfold key value st) as Hunfold. cbn zeta in Hunfold.
  split.
  - intros Hcase.
    assert (length (filter (fun k => k <> key) (cacheOrder st) ++ [key])
            <= maxSize)%nat as Hfit.
    { rewrite length_app. cbn [length].
      destruct (decide (key ∈ cacheOrder st)) as [Hin|Hnot].
      - pose proof (filter_length_present key _ Hnd Hin). lia.
      - rewrite filter_absent by exact Hnot. destruct Hcase; [contradiction | lia]. }
    apply Nat.ltb_ge in Hfit. rewrite Hfit in Hunfold.
    injection Hunfold as -> ->. auto.
  - intros Hnot Hfull. rewrite filter_absent in Hunfold by exact Hnot.
    destruct (cacheOrder st) as [|oldest rest] eqn:Horder; [discriminate|].
    assert ((maxSize <? length ((oldest :: rest) ++ [key]))%nat = true) as Hover.
    { apply Nat.ltb_lt. rewrite length_app. cbn [length] in *. lia. }
    rewrite Hover in Hunfold. cbn [app] in Hunfold.
    injection Hunfold as -> ->. exists oldest, rest. auto.
Qed.

(** X19. [addToCache] keeps the cache consistent and bounded: if the order
    lists exactly the cached keys, each once, and at most three keys are
    cached, the same holds after the call, for every key and value.  The
    empty cache [main] starts from is in that state. *)
Theorem addToCache_invariant (key value : string) (st : cache_state)
    (Hinv : cache_invariant st) :
  cache_invariant (addToCache key value st) /\ cache_invariant empty_cache.
Proof.
  split.
  2:{ repeat split; cbn; try apply NoDup_nil_2; try lia.
      - intros [v Hv]. rewrite lookup_empty in Hv. discriminate.
      - intros Hin. inversion Hin. }
  pose proof Hinv as (Hnd & Hdom & Hlen).
  destruct (addToCache_cases key value st Hinv) as [Hkeep Hevict].
  assert (NoDup (filter (fun k => k <> key) (cacheOrder st) ++ [key])) as Hnd'.
  { apply NoDup_app. split; [apply NoDup_filter, Hnd|]. split.
    - intros k Hk Hin. apply list_elem_of_filter in Hk as [Hne _].
      apply list_elem_of_singleton in Hin. contradiction.
    - apply NoDup_singleton. }
  destruct (decide (key ∈ cacheOrder st \/ (length (cacheOrder st) < maxSize)%nat))
    as [Hcase|Hcase].
  - destruct (Hkeep Hcase) as [Hc Ho]. unfold cache_invariant. rewrite Hc, Ho.
    split; [exact Hnd'|]. split.
    + intros k. rewrite lookup_insert_is_Some, Hdom, elem_of_app,
        list_elem_of_filter, list_elem_of_singleton.
      destruct (decide (key = k)) as [->|Hne]; [tauto|].
      split; [intros [?|[_ ?]]; [congruence | left; split; [congruence | assumption]]|].
      intros [[_ ?]|?]; [right; split; assumption | congruence].
    + rewrite length_app. cbn [length].
      destruct (decide (key ∈ cacheOrder st)) as [Hin|Hnot].
      * pose proof (filter_length_present key _ Hnd Hin). lia.
      * rewrite filter_absent by exact Hnot. destruct Hcase; [contradiction | lia].
  - assert (key ∉ cacheOrder st) as Hnot by tauto.
    assert (length (cacheOrder st) = maxSize) as Hfull by lia.
    destruct (Hevict Hnot Hfull) as (oldest & rest & Horder & Hc & Ho).
    rewrite filter_absent, Horder in Hnd' by exact Hnot.
    cbn [app] in Hnd'. apply NoDup_cons in Hnd' as [Hold Hrest].
    unfold cache_invariant. rewrite Hc, Ho.
    split; [exact Hrest|]. split.
    + rewrite elem_of_app, list_elem_of_singleton in Hold.
      intros k. rewrite lookup_delete_is_Some, lookup_insert_is_Some, Hdom, Horder.
      rewrite elem_of_app, list_elem_of_singleton, elem_of_cons.
      destruct (decide (oldest = k)) as [->|Hne]; [tauto|].
      destruct (decide (key = k)) as [->|Hne']; [tauto|].
      intuition congruence.
    + rewrite Horder in Hfull. rewrite length_app. cbn [length] in *. lia.
Qed.

(** X20. After [addToCache(key, value)] on a consistent cache, looking up
    [key] gives [value], and [key] is the last, most recently used, entry of
    the order. *)
Theorem addToCache_lookup (key value : string) (st : cache_state)
    (Hinv : cache_invariant st) :
  cache (addToCache key value st) !! key = Some value /\
  last (cacheOrder (addToCache key value st)) = Some key.
Proof.
  destruct (addToCache_cases key value st Hinv) as [Hkeep Hevict].
  destruct Hinv as (Hnd & Hdom & Hlen).
  destruct (decide (key ∈ cacheOrder st \/ (length (cacheOrder st) < maxSize)%nat))
    as [Hcase|Hcase].
  - destruct (Hkeep Hcase) as [-> ->].
    split; [apply lookup_insert_eq | apply last_snoc].
  - assert (key ∉ cacheOrder st) as Hnot by tauto.
    destruct (Hevict Hnot ltac:(lia)) as (oldest & rest & Horder & -> & ->).
    split; [|apply last_snoc].
    rewrite lookup_delete_ne, lookup_insert_eq; [reflexivity|].
    intros ->. apply Hnot. rewrite Horder. left.
Qed.


End Cache.

(** The five calls of [main]: "user1" is evicted by the fourth, the fifth
    updates "user2" and moves it to the end. *)
Example cache_usage_result :
  CollectionsDemo.cacheOrder CollectionsDemo.cache_usage
  = ["user3"; "user4"; "user2"] /\
  CollectionsDemo.cache CollectionsDemo.cache_usage !! "user2" = Some "Bob Jr." /\
  CollectionsDemo.cache CollectionsDemo.cache_usage !! "user1" = None.
Proof. repeat split; vm_compute; reflexivity. Qed.

Lemma addToCache_invariant_witness :
  cache_invariant
    (CollectionsDemo.addToCache "user1" "Alice" CollectionsDemo.empty_cache).
Proof.
  destruct (addToCache_invariant "user1" "Alice" CollectionsDemo.empty_cache)
    as [Hinv Hempty].
  - repeat split; cbn; try apply NoDup_nil_2; try lia.
    + intros [v Hv]. rewrite lookup_empty in Hv. discriminate.
    + intros Hin. inversion Hin.
  - exact Hinv.
Defined.

Lemma addToCache_lookup_witness :
  CollectionsDemo.cache
    (CollectionsDemo.addToCache "user1" "Alice" CollectionsDemo.empty_cache)
    !! "user1" = Some "Alice".
Proof.
  destruct (addToCache_lookup "user1" "Alice" CollectionsDemo.empty_cache)
    as [Hlookup _]; [|exact Hlookup].
  repeat split; cbn; try apply NoDup_nil_2; try lia.
  - intros [v Hv]. rewrite lookup_empty in Hv. discriminate.
  - intros Hin. inversion Hin.
Defined.

(* ===================================================================== *)
(** * Package [basics]: the remaining operators and conditionals *)
(* ===================================================================== *)

Section CalculateFacts.
Import Operators.
Context (sz : IntSize).

(** X22. [Calculate] is associative and commutative also when a sum
    overflows, because [int] addition is addition modulo [2^w]; 0 is
    neutral on every [int], the result is always an [int], and it is the
    sum that [AllOperations] returns. *)
Theorem Calculate_algebra (a b c : Z) (Ha : in_range sz a) :
  Calculate sz (Calculate sz a b) c = Calculate sz a (Calculate sz b c) /\
  Calculate sz a b = Calculate sz b a /\
  Calculate sz a 0 = a /\
  in_range sz (Calculate sz a b) /\
  (forall r, AllOperations sz a b = Ok r -> r.1.1.1.1 = Calculate sz a b).
Proof.
  unfold Calculate, add. repeat split.
  - rewrite wrap_add_l, wrap_add_r. f_equal. lia.
  - f_equal. lia.
  - rewrite Z.add_0_r. apply wrap_exact, Ha.
  - apply wrap_in_range.
  - apply wrap_in_range.
  - intros r. unfold AllOperations.
    destruct (quo sz a b) as [q|]; [|discriminate].
    destruct (rem sz a b) as [m|]; [|discriminate].
    cbn. intros [= <-]. reflexivity.
Qed.

End CalculateFacts.

Section ComparisonFacts.
Import Operators.

(** X23. The six results of [ComparisonOperators] are consistent: exactly
    one of [equal], [lessThan] and [greaterThan] is true, [notEqual] is the
    negation of [equal], [lessOrEqual] and [greaterOrEqual] are the
    negations of [greaterThan] and [lessThan], and swapping the arguments
    swaps the roles of less and greater. *)
Theorem ComparisonOperators_consistent (x y : Z) :
  exists equal notEqual lessThan lessOrEqual greaterThan greaterOrEqual,
    ComparisonOperators x y
    = (equal, notEqual, lessThan, lessOrEqual, greaterThan, greaterOrEqual) /\
    ((equal = true /\ lessThan = false /\ greaterThan = false) \/
     (equal = false /\ lessThan = true /\ greaterThan = false) \/
     (equal = false /\ lessThan = false /\ greaterThan = true)) /\
    notEqual = negb equal /\
    lessOrEqual = negb greaterThan /\
    greaterOrEqual = negb lessThan /\
    ComparisonOperators y x
    = (equal, notEqual, greaterThan, greaterOrEqual, lessThan, lessOrEqual).
Proof.
  unfold ComparisonOperators. do 6 eexists. split; [reflexivity|].
  rewrite !Z.gtb_ltb, !Z.geb_leb.
  destruct (Z.eqb_spec x y), (Z.eqb_spec y x), (Z.ltb_spec x y),
    (Z.ltb_spec y x), (Z.leb_spec x y), (Z.leb_spec y x);
    try lia; cbn; intuition congruence.
Qed.

End ComparisonFacts.

Ltac decide_tests :=
  rewrite ?Z.gtb_ltb, ?Z.geb_leb;
  repeat (match goal with
          | |- context [Z.ltb ?a ?b] => destruct (Z.ltb_spec a b)
          | |- context [Z.leb ?a ?b] => destruct (Z.leb_spec a b)
          | |- context [Z.eqb ?a ?b] => destruct (Z.eqb_spec a b)
          end;
          try (exfalso; lia); cbn [andb orb negb]).

Ltac settle_branch :=
  repeat split; intros;
  try reflexivity; try discriminate; try lia;
  try (exfalso; lia).

Section MoreConditionalFacts.
Import Conditionals.

(** X24. [GetAgeCategory] cuts the integers into five intervals: below 0,
    0 to 12, 13 to 19, 20 to 59, and 60 or more. *)
Theorem GetAgeCategory_spec (age : Z) :
  (GetAgeCategory age = "Invalid age" <-> age < 0) /\
  (GetAgeCategory age = "Child" <-> 0 <= age < 13) /\
  (GetAgeCategory age = "Teenager" <-> 13 <= age < 20) /\
  (GetAgeCategory age = "Adult" <-> 20 <= age < 60) /\
  (GetAgeCategory age = "Senior" <-> 60 <= age).
Proof. unfold GetAgeCategory. decide_tests; settle_branch. Qed.

(** X25. [EvaluateGrade] gives "A" from 90, "B" from 80 to 89, "C" from 70
    to 79, "D" from 60 to 69 and "F" below 60, negative scores included;
    there is no upper bound on an "A".  The grade depends only on the tens
    of the score: rounding the score down to a multiple of 10 does not
    change it. *)
Theorem EvaluateGrade_spec (score : Z) :
  (EvaluateGrade score = "A - Excellent!" <-> 90 <= score) /\
  (EvaluateGrade score = "B - Good job!" <-> 80 <= score < 90) /\
  (EvaluateGrade score = "C - Satisfactory" <-> 70 <= score < 80) /\
  (EvaluateGrade score = "D - Needs improvement" <-> 60 <= score < 70) /\
  (EvaluateGrade score = "F - Failed" <-> score < 60) /\
  EvaluateGrade (10 * (score / 10)) = EvaluateGrade score.
Proof.
  assert (forall k, 10 * k <= score <-> 10 * k <= 10 * (score / 10)) as Htens
    by (intros k; Z.to_euclidean_division_equations; lia).
  pose proof (Htens 9). pose proof (Htens 8). pose proof (Htens 7).
  pose proof (Htens 6).
  unfold EvaluateGrade. decide_tests; settle_branch.
Qed.

(** X26. [GetDayType] knows the days 1 to 7 only: 1 to 5 are weekdays, 6
    and 7 the weekend, every other number (0 and the negative ones
    included) is invalid. *)
Theorem GetDayType_spec (dayNumber : Z) :
  (GetDayType dayNumber = "Weekday" <-> 1 <= dayNumber <= 5) /\
  (GetDayType dayNumber = "Weekend" <-> 6 <= dayNumber <= 7) /\
  (GetDayType dayNumber = "Invalid day number" <->
     dayNumber < 1 \/ 7 < dayNumber).
Proof. unfold GetDayType. decide_tests; settle_branch. Qed.

(** X27. For a month from 1 to 12, [GetMonthQuarter] is "Q" followed by
    the number [(month - 1) / 3 + 1]; every other number gives
    "Invalid month". *)
Theorem GetMonthQuarter_spec (month : Z) :
  (1 <= month <= 12 ->
     GetMonthQuarter month = "Q" +:+ pretty ((month - 1) / 3 + 1)) /\
  (GetMonthQuarter month = "Invalid month" <-> month < 1 \/ 12 < month).
Proof.
  split.
  - intros Hm.
    assert (month = 1 \/ month = 2 \/ month = 3 \/ month = 4 \/ month = 5 \/
            month = 6 \/ month = 7 \/ month = 8 \/ month = 9 \/ month = 10 \/
            month = 11 \/ month = 12) as Hcases by lia.
    repeat (destruct Hcases as [->|Hcases]); try subst month; reflexivity.
  - unfold GetMonthQuarter. decide_tests; settle_branch.
Qed.

(** X28. [AnalyzeCharacter] classifies a rune by its code point: 'a' to
    'z', 'A' to 'Z', '0' to '9', space, newline and tab, and "Special
    character" for every other rune, a carriage return or a letter outside
    ASCII included.  A rune is a lowercase letter exactly when the rune 32
    below it is an uppercase letter. *)
Theorem AnalyzeCharacter_spec (char : Z) :
  (AnalyzeCharacter char = "Lowercase letter" <-> 97 <= char <= 122) /\
  (AnalyzeCharacter char = "Uppercase letter" <-> 65 <= char <= 90) /\
  (AnalyzeCharacter char = "Digit" <-> 48 <= char <= 57) /\
  (AnalyzeCharacter char = "Space" <-> char = 32) /\
  (AnalyzeCharacter char = "Newline" <-> char = 10) /\
  (AnalyzeCharacter char = "Tab" <-> char = 9) /\
  (AnalyzeCharacter char = "Special character" <->
     ~ (97 <= char <= 122 \/ 65 <= char <= 90 \/ 48 <= char <= 57 \/
        char = 32 \/ char = 10 \/ char = 9)) /\
  (AnalyzeCharacter char = "Lowercase letter" <->
     AnalyzeCharacter (char - 32) = "Uppercase letter").
Proof. unfold AnalyzeCharacter. decide_tests; settle_branch. Qed.

(** The month names in calendar order, and the seasons from winter on. *)
Definition months : list string :=
  ["January"; "February"; "March"; "April"; "May"; "June"; "July"; "August";
   "September"; "October"; "November"; "December"].

Definition seasons : list string := ["Winter"; "Spring"; "Summer"; "Fall"].

(** X29. [GetSeason] accepts exactly the twelve English month names,
    capitalised; every other string, a lowercase or abbreviated name
    included, gives "Invalid month".  Counting the months from January = 1,
    month [m] lies in season number [(m mod 12) / 3] counted from winter, so
    that December, January and February are winter. *)
Theorem GetSeason_spec (month : string) :
  (GetSeason month = "Invalid month" <-> ~ In month months) /\
  (forall m : nat, months !! m = Some month ->
     seasons !! ((S m mod 12) / 3)%nat = Some (GetSeason month)).
Proof.
  split.
  - destruct (in_dec String.string_dec month months) as [Hin|Hnot].
    + split; [|tauto]. intros Heq. exfalso. revert Heq. unfold months in Hin.
      cbn [In] in Hin.
      repeat (destruct Hin as [<-|Hin]; [discriminate|]). contradiction.
    + split; [tauto|]. intros _. unfold GetSeason.
      unfold months in Hnot. cbn [In] in Hnot.
      repeat match goal with
      | |- context [String.eqb month ?b] =>
          rewrite (proj2 (String.eqb_neq month b)) by (intros ->; tauto)
      end.
      reflexivity.
  - intros m Hm.
    do 12 (destruct m as [|m]; [injection Hm as <-; reflexivity|]).
    discriminate.
Qed.

End MoreConditionalFacts.

Lemma Calculate_algebra_witness :
  Operators.Calculate Int64 (Operators.Calculate Int64 9223372036854775807 1) (-1)
  = 9223372036854775807 /\
  Operators.Calculate Int64 9223372036854775807 1 = -9223372036854775808.
Proof.
  destruct (Calculate_algebra Int64 9223372036854775807 1 (-1))
    as (Hassoc & _); [range_closed|].
  split; [rewrite Hassoc|]; reflexivity.
Defined.
